(** * Note store of the notes front end (src/notes_frontend/src/App.js)

    A shallow embedding of the state held by the [App] component (the
    ordered collection of notes and the selected note id), of its four
    handlers, of the two derived views ([filteredNotes], [selectedNote]),
    of the save guard of [NoteEditor] and of the item class and the
    empty-list test of [Sidebar], followed by the properties the
    specification states about them and by further properties read off
    the code.

    Conventions of the embedding.
    - User text ([title], [content], the search query) is a [Text]: the
      sequence of the UTF-16 code units of a JavaScript string. A Rocq
      string literal stands for the text of its characters.
    - [String.prototype.toLowerCase] is a parameter of the definitions
      that call it; what a proof uses of it is a hypothesis of the
      theorem.
    - Ids are the ASCII strings that [generateId] makes.
    - A timestamp is the time value (milliseconds since the epoch) of
      the [Date] whose [toISOString()] rendering the source stores.
    - The readings of the wall clock and the draw of [Math.random]
      are arguments of the handler that takes them; a handler that reads
      the clock once per matching note takes the sequence of its
      readings. *)

From Stdlib Require Import List String Ascii Bool ZArith NArith Lia.
From Stdlib Require Import DecimalString DecimalZ DecimalN FinFun Permutation.
Import ListNotations.

Local Open Scope string_scope.
Local Open Scope list_scope.
Local Open Scope Z_scope.

(* ================================================================= *)
(** ** Text *)

(** The UTF-16 code units of a JavaScript string. *)
Definition Text := list N.

(** The text of a literal. *)
Definition text (s : string) : Text :=
  map N_of_ascii (list_ascii_of_string s).

Coercion text : string >-> Text.

(** [a === b] on two strings. *)
Fixpoint eqText (a b : Text) : bool :=
  match a, b with
  | [], [] => true
  | x :: a', y :: b' => (x =? y)%N && eqText a' b'
  | _, _ => false
  end.

(** [!s] for a string [s]: only the empty string is falsy. *)
Definition isEmpty (s : Text) : bool :=
  match s with
  | [] => true
  | _ :: _ => false
  end.

(** ECMAScript [WhiteSpace] and [LineTerminator]: TAB, LF, VT, FF, CR,
    SPACE, NO-BREAK SPACE, the other space separators (U+1680,
    U+2000..U+200A, U+202F, U+205F, U+3000), LINE and PARAGRAPH
    SEPARATOR, and U+FEFF. *)
Definition isWhiteSpace (u : N) : bool :=
  (((9 <=? u) && (u <=? 13)) || (u =? 32) || (u =? 160)
   || (u =? 5760) || ((8192 <=? u) && (u <=? 8202))
   || (u =? 8232) || (u =? 8233) || (u =? 8239) || (u =? 8287)
   || (u =? 12288) || (u =? 65279))%N.

Fixpoint trimStart (s : Text) : Text :=
  match s with
  | [] => []
  | c :: s' => if isWhiteSpace c then trimStart s' else s
  end.

Fixpoint trimEnd (s : Text) : Text :=
  match s with
  | [] => []
  | c :: s' =>
      let r := trimEnd s' in
      if isWhiteSpace c && isEmpty r then [] else c :: r
  end.

(** [String.prototype.trim] *)
Definition trim (s : Text) : Text := trimEnd (trimStart s).

(** [String.prototype.startsWith] *)
Fixpoint startsWith (s q : Text) {struct q} : bool :=
  match q, s with
  | [], _ => true
  | _ :: _, [] => false
  | a :: q', b :: s' => (a =? b)%N && startsWith s' q'
  end.

(** [String.prototype.includes]: [q] starts at some position of [s]. *)
Fixpoint includes (s q : Text) : bool :=
  startsWith s q ||
  match s with
  | [] => false
  | _ :: s' => includes s' q
  end.

(** Lower-casing of a code unit below U+0100: A..Z and the Latin-1
    capitals U+00C0..U+00DE (the multiplication sign U+00D7 apart) move
    up by 32; every other code unit below U+0100 is its own lower case. *)
Definition lowerUnit (u : N) : N :=
  if (((65 <=? u) && (u <=? 90))
      || ((192 <=? u) && (u <=? 222) && negb (u =? 215)))%N
  then (u + 32)%N else u.

(** Text over U+0000..U+00FF. *)
Definition latin1 (s : Text) : Prop := Forall (fun u => (u < 256)%N) s.

(** The letters that have a case among U+0000..U+00FF, and the three
    Greek sigmas U+03A3, U+03C2, U+03C3. *)
Definition isCasedUnit (u : N) : bool :=
  (((65 <=? u) && (u <=? 90)) || ((97 <=? u) && (u <=? 122))
   || (u =? 170) || (u =? 181) || (u =? 186)
   || ((192 <=? u) && (u <=? 214)) || ((216 <=? u) && (u <=? 246))
   || ((248 <=? u) && (u <=? 255))
   || (u =? 931) || (u =? 962) || (u =? 963))%N.

Definition nextIsCased (s : Text) : bool :=
  match s with
  | [] => false
  | v :: _ => isCasedUnit v
  end.

Fixpoint lowerAfter (prevCased : bool) (s : Text) : Text :=
  match s with
  | [] => []
  | u :: s' =>
      (if (u =? 931)%N
       then if prevCased && negb (nextIsCased s') then 962%N else 963%N
       else lowerUnit u)
      :: lowerAfter (isCasedUnit u) s'
  end.

(** [String.prototype.toLowerCase] computed on the texts on which the
    definitions are run on concrete input: text over U+0000..U+00FF,
    where it acts code unit by code unit, and text over the ASCII
    letters and the Greek sigmas, where GREEK CAPITAL LETTER SIGMA
    (U+03A3) becomes the final sigma U+03C2 when a letter precedes it
    and none follows it, and U+03C3 otherwise. *)
Definition toLowerCaseSample (s : Text) : Text := lowerAfter false s.

(** Decimal rendering of an integer, as [+] does when it concatenates a
    number to a string. *)
Definition stringOfZ (z : Z) : string := NilEmpty.string_of_int (Z.to_int z).
Definition stringOfN (n : N) : string := NilEmpty.string_of_uint (N.to_uint n).

(* ================================================================= *)
(** ** Data model *)

(** Notes store: [{ id, title, content, created, updated }]. *)
Record Note := mkNote {
  id : string;
  title : Text;
  content : Text;
  created : Z;
  updated : Z
}.

(** The object handed to [handleUpdateNote]: any of a note's keys may be
    present. *)
Record NewFields := mkNewFields {
  nf_id : option string;
  nf_title : option Text;
  nf_content : option Text;
  nf_created : option Z;
  nf_updated : option Z
}.

(** The partial objects [{title?, content?}] of the store's interface;
    [NoteEditor] passes [{ title, content }]. *)
Definition titleContent (t c : option Text) : NewFields :=
  {| nf_id := None; nf_title := t; nf_content := c;
     nf_created := None; nf_updated := None |}.

(** The state of [App] that the store's operations read and write. *)
Record State := mkState {
  notes : list Note;
  selectedNoteId : option string
}.

(** [useState([])], [useState(null)] *)
Definition initialState : State :=
  {| notes := []; selectedNoteId := None |}.

(** [a === b] for a string [a] and a value [b] that is a string or [null]. *)
Definition strictEq (a : string) (b : option string) : bool :=
  match b with
  | Some s => (a =? s)%string
  | None => false
  end.

Definition orElse {A : Type} (o : option A) (d : A) : A :=
  match o with
  | Some x => x
  | None => d
  end.

(* ================================================================= *)
(** ** Derived views *)

Section Builtin.

(** [String.prototype.toLowerCase] *)
Variable toLowerCase : Text -> Text.

Definition matchesQuery (q : Text) (note : Note) : bool :=
  includes (toLowerCase (title note)) q
  || includes (toLowerCase (content note)) q.

Definition filteredNotes (searchQuery : Text) (ns : list Note) : list Note :=
  if isEmpty (trim searchQuery) then ns
  else
    let q := toLowerCase searchQuery in
    filter (matchesQuery q) ns.

End Builtin.

Definition selectedNote (ns : list Note) (sel : option string) : option Note :=
  find (fun n => strictEq (id n) sel) ns.

(* ================================================================= *)
(** ** Note actions *)

(** ['id-' + Date.now() + '-' + Math.floor(Math.random()*9999)];
    [dateNow] is the reading of [Date.now()], [rnd] the floored draw
    (an integer in 0..9998). *)
Definition generateId (dateNow : Z) (rnd : N) : string :=
  ("id-" ++ stringOfZ dateNow ++ "-" ++ stringOfN rnd)%string.

(** [now] is the time value of [new Date()], read before [generateId]
    reads [Date.now()]. *)
Definition handleCreateNote (now dateNow : Z) (rnd : N) (st : State) : State :=
  let note :=
    {| id := generateId dateNow rnd;
       title := "Untitled Note";
       content := "";
       created := now;
       updated := now |} in
  {| notes := note :: notes st;
     selectedNoteId := Some (id note) |}.

(** [{ ...n, ...newFields }] *)
Definition spread (n : Note) (f : NewFields) : Note :=
  {| id := orElse (nf_id f) (id n);
     title := orElse (nf_title f) (title n);
     content := orElse (nf_content f) (content n);
     created := orElse (nf_created f) (created n);
     updated := orElse (nf_updated f) (updated n) |}.

Definition setUpdated (n : Note) (t : Z) : Note :=
  {| id := id n; title := title n; content := content n;
     created := created n; updated := t |}.

(** The [map] of [handleUpdateNote]. Its callback evaluates [new Date()]
    once for each note whose id is [i], in the order of the collection,
    and not at all for the other notes: [clock j] is the time value of
    the [j]-th evaluation of the call, [k] the number of evaluations
    made so far. *)
Fixpoint updateNotes (clock : nat -> Z) (k : nat) (i : string)
    (newFields : NewFields) (ns : list Note) : list Note :=
  match ns with
  | [] => []
  | n :: ns' =>
      if (id n =? i)%string
      then setUpdated (spread n newFields) (clock k)
           :: updateNotes clock (S k) i newFields ns'
      else n :: updateNotes clock k i newFields ns'
  end.

Definition handleUpdateNote (clock : nat -> Z) (i : string)
    (newFields : NewFields) (st : State) : State :=
  {| notes := updateNotes clock 0 i newFields (notes st);
     selectedNoteId := selectedNoteId st |}.

Definition handleDeleteNote (i : string) (st : State) : State :=
  {| notes := filter (fun n => negb (id n =? i)%string) (notes st);
     selectedNoteId :=
       if strictEq i (selectedNoteId st) then None else selectedNoteId st |}.

Definition handleSelectNote (i : option string) (st : State) : State :=
  {| notes := notes st; selectedNoteId := i |}.

(** [NoteEditor.handleSave], with [onUpdate] bound as [App] binds it:
    [fields => handleUpdateNote(selectedNote.id, fields)]. [note] is the
    note the editor shows, [t] and [c] its staged title and content. *)
Definition handleSave (clock : nat -> Z) (note : Note) (t c : Text)
    (st : State) : State :=
  if negb (eqText t (title note)) || negb (eqText c (content note))
  then handleUpdateNote clock (id note) (titleContent (Some t) (Some c)) st
  else st.

(* ================================================================= *)
(** ** Sessions *)

(** One call of a store operation, with the clock readings and the
    random draw it consumes. [UpdateNote] carries the fields
    [{title?, content?}] of the store's interface. *)
Inductive Op : Type :=
| CreateNote (now dateNow : Z) (rnd : N)
| UpdateNote (clock : nat -> Z) (i : string) (t c : option Text)
| DeleteNote (i : string)
| SelectNote (i : option string).

Definition step (st : State) (o : Op) : State :=
  match o with
  | CreateNote now dateNow rnd => handleCreateNote now dateNow rnd st
  | UpdateNote clock i t c => handleUpdateNote clock i (titleContent t c) st
  | DeleteNote i => handleDeleteNote i st
  | SelectNote i => handleSelectNote i st
  end.

Definition run (ops : list Op) (st : State) : State := fold_left step ops st.

(** The number of notes with id [i]. *)
Definition matchCount (i : string) (ns : list Note) : nat :=
  List.length (filter (fun n => (id n =? i)%string) ns).

(** The number of notes with id [i] before position [k]. *)
Definition matchesBefore (i : string) (ns : list Note) (k : nat) : nat :=
  matchCount i (firstn k ns).

(** The clock readings a call takes in state [st], in the order the code
    takes them: an update reads the clock once per matching note. *)
Definition clockReadings (st : State) (o : Op) : list Z :=
  match o with
  | CreateNote now dateNow _ => [now; dateNow]
  | UpdateNote clock i _ _ => map clock (seq 0 (matchCount i (notes st)))
  | DeleteNote _ => []
  | SelectNote _ => []
  end.

(** The clock readings of a session that starts in [st]. *)
Fixpoint sessionReadings (ops : list Op) (st : State) : list Z :=
  match ops with
  | [] => []
  | o :: ops' => clockReadings st o ++ sessionReadings ops' (step st o)
  end.

Fixpoint nondecreasingFrom (t : Z) (rs : list Z) : Prop :=
  match rs with
  | [] => True
  | r :: rs' => t <= r /\ nondecreasingFrom r rs'
  end.

Definition nondecreasing (rs : list Z) : Prop :=
  match rs with
  | [] => True
  | r :: rs' => nondecreasingFrom r rs'
  end.

(** The clock never runs backwards during the session (which starts in
    the initial state). *)
Definition monotoneClock (ops : list Op) : Prop :=
  nondecreasing (sessionReadings ops initialState).

(** The id that a call assigns: the id of the note that a [CreateNote]
    puts at the front. *)
Definition assignedId (st : State) (o : Op) : list string :=
  match o with
  | CreateNote _ _ _ =>
      match notes (step st o) with
      | n :: _ => [id n]
      | [] => []
      end
  | _ => []
  end.

(** The ids assigned during a session, oldest first. *)
Fixpoint assignedIds (ops : list Op) (st : State) : list string :=
  match ops with
  | [] => []
  | o :: ops' => assignedId st o ++ assignedIds ops' (step st o)
  end.

(** What [generateId] reads at each [CreateNote] of a session. *)
Definition idSeeds (ops : list Op) : list (Z * N) :=
  flat_map (fun o => match o with
                     | CreateNote _ dateNow rnd => [(dateNow, rnd)]
                     | _ => []
                     end) ops.

(* ================================================================= *)
(** ** Vocabulary of the specification *)

(** The query is empty or consists only of whitespace. *)
Definition allWhiteSpace (s : Text) : Prop :=
  forallb isWhiteSpace s = true.

(** [q] is a substring of [s]. *)
Definition isSubstring (q s : Text) : Prop :=
  exists pre post, s = pre ++ q ++ post.

Section BuiltinVocabulary.

Variable toLowerCase : Text -> Text.

Definition equalIgnoringCase (a b : Text) : Prop :=
  toLowerCase a = toLowerCase b.

(** [q] occurs in [s] as a substring, up to the case of the letters. *)
Definition occursIgnoringCase (q s : Text) : Prop :=
  exists pre mid post,
    s = pre ++ mid ++ post /\ equalIgnoringCase mid q.

Definition noteMatches (q : Text) (n : Note) : Prop :=
  occursIgnoringCase q (title n) \/ occursIgnoringCase q (content n).

(** The lower-cased query is a substring of the lower-cased title or of
    the lower-cased content. *)
Definition loweredQueryIn (q : Text) (n : Note) : Prop :=
  isSubstring (toLowerCase q) (toLowerCase (title n))
  \/ isSubstring (toLowerCase q) (toLowerCase (content n)).

(** Two facts of [String.prototype.toLowerCase]: on text over
    U+0000..U+00FF it acts code unit by code unit, as [lowerUnit]; and
    the lower case of a text is empty or all whitespace exactly when
    the text is. *)
Definition lowersLatin1ByUnit : Prop :=
  forall s, latin1 s -> toLowerCase s = map lowerUnit s.

Definition lowerKeepsBlank : Prop :=
  forall s, allWhiteSpace (toLowerCase s) <-> allWhiteSpace s.

End BuiltinVocabulary.

(** [keptInOrder P l r]: [r] is [l] with exactly the elements that
    satisfy [P] kept, in the order (and with the multiplicity) of [l]. *)
Inductive keptInOrder {A : Type} (P : A -> Prop) : list A -> list A -> Prop :=
| kio_nil : keptInOrder P [] []
| kio_keep x l r : P x -> keptInOrder P l r -> keptInOrder P (x :: l) (x :: r)
| kio_drop x l r : ~ P x -> keptInOrder P l r -> keptInOrder P (x :: l) r.

(** Every note was created no later than it was last updated, and last
    updated no later than the clock reading [t]. *)
Definition stampsOrdered (t : Z) (st : State) : Prop :=
  forall n, In n (notes st) -> created n <= updated n /\ updated n <= t.

Fixpoint containsChar (c : ascii) (s : string) : bool :=
  match s with
  | EmptyString => false
  | String a s' => Ascii.eqb a c || containsChar c s'
  end.

(* ================================================================= *)
(** ** Vocabulary for sessions driven by the user interface *)

(** The callback of the [map] in [handleUpdateNote], for the reading
    [now] of its [new Date()]. *)
Definition updateCallback (now : Z) (i : string) (f : NewFields) (n : Note)
    : Note :=
  if (id n =? i)%string then setUpdated (spread n f) now else n.

(** A later partial object laid over an earlier one, key by key. *)
Definition laterOver {A : Type} (later earlier : option A) : option A :=
  match later with
  | Some x => Some x
  | None => earlier
  end.

(** The selected id is null or the id of a note of the collection. *)
Definition selectionValid (st : State) : Prop :=
  match selectedNoteId st with
  | None => True
  | Some i => In i (map id (notes st))
  end.

(** Sessions in which [handleSelectNote] is called as [Sidebar] calls
    it, [onSelect(note.id)] for a note of the list it is given: each
    selected id is the id of a note the collection holds at that time. *)
Fixpoint sidebarSelections (ops : list Op) (st : State) : Prop :=
  match ops with
  | [] => True
  | o :: ops' =>
      match o with
      | SelectNote (Some i) => In i (map id (notes st))
      | _ => True
      end
      /\ sidebarSelections ops' (step st o)
  end.

(** [Sidebar]: the class of the list item of [note]. *)
Definition itemClassName (selectedNoteId : option string) (note : Note)
    : string :=
  if strictEq (id note) selectedNoteId
  then "note-list-item selected" else "note-list-item".

(** [Sidebar]: whether the item ["No notes found."] is rendered,
    [notes.length === 0]. *)
Definition showsEmptyMessage (ns : list Note) : bool :=
  Nat.eqb (List.length ns) 0.

(** The note that [handleCreateNote] builds. *)
Definition newNote (now dateNow : Z) (rnd : N) : Note :=
  {| id := generateId dateNow rnd; title := "Untitled Note"; content := "";
     created := now; updated := now |}.

(* ================================================================= *)
(** ** Lemmas on text *)

Section TextLemmas.

Lemma eqText_iff (a b : Text) : eqText a b = true <-> a = b.
Proof.
  revert b; induction a as [|x a IH]; intros [|y b]; simpl;
    try (split; [discriminate | discriminate]); [tauto|].
  rewrite andb_true_iff, N.eqb_eq, IH. split.
  - now intros [-> ->].
  - now intros [= -> ->].
Qed.

Lemma eqText_refl (a : Text) : eqText a a = true.
Proof. now apply eqText_iff. Qed.

Lemma startsWith_iff (s q : Text) :
  startsWith s q = true <-> exists post, s = q ++ post.
Proof.
  revert s; induction q as [|a q IH]; intros s; simpl.
  - split; [intros _; now exists s | reflexivity].
  - destruct s as [|b s].
    + split; [discriminate | intros [post H]; discriminate].
    + rewrite andb_true_iff, IH. split.
      * intros [Hab [post ->]]. apply N.eqb_eq in Hab. subst b.
        now exists post.
      * intros [post H]. inversion H; subst. split.
        -- apply N.eqb_refl.
        -- now exists post.
Qed.

Lemma includes_iff (s q : Text) : includes s q = true <-> isSubstring q s.
Proof.
  unfold isSubstring. induction s as [|b s IH].
  - cbn [includes]. rewrite orb_false_r, startsWith_iff. split.
    + intros [post H]. now exists [], post.
    + intros [pre [post H]]. destruct pre; [now exists post | discriminate].
  - cbn [includes]. rewrite orb_true_iff, startsWith_iff, IH. split.
    + intros [[post H] | [pre [post H]]].
      * now exists [], post.
      * exists (b :: pre), post. simpl. now rewrite H.
    + intros [pre [post H]]. destruct pre as [|x pre].
      * left. now exists post.
      * right. simpl in H. inversion H; subst. now exists pre, post.
Qed.

Lemma isSubstring_trans (a b c : Text) :
  isSubstring a b -> isSubstring b c -> isSubstring a c.
Proof.
  intros [p1 [q1 ->]] [p2 [q2 ->]]. exists (p2 ++ p1), (q1 ++ q2).
  now rewrite <- !app_assoc.
Qed.

Lemma isEmpty_iff (s : Text) : isEmpty s = true <-> s = [].
Proof. destruct s; simpl; split; try reflexivity; discriminate. Qed.

Lemma trimEnd_empty_iff (s : Text) : trimEnd s = [] <-> allWhiteSpace s.
Proof.
  unfold allWhiteSpace. induction s as [|c s IH]; simpl.
  - tauto.
  - destruct (isWhiteSpace c); simpl.
    + destruct (trimEnd s) as [|x r]; simpl.
      * split; [intros _; now apply IH | reflexivity].
      * split; [discriminate | intros H; apply IH in H; discriminate].
    + split; discriminate.
Qed.

Lemma allWhiteSpace_trimStart (s : Text) :
  allWhiteSpace (trimStart s) <-> allWhiteSpace s.
Proof.
  unfold allWhiteSpace. induction s as [|c s IH]; simpl.
  - tauto.
  - destruct (isWhiteSpace c) eqn:E; simpl; [exact IH | now rewrite E].
Qed.

(** [!searchQuery.trim()] holds exactly for the empty and the
    all-whitespace queries. *)
Lemma trim_empty_iff (s : Text) : trim s = [] <-> allWhiteSpace s.
Proof. unfold trim. now rewrite trimEnd_empty_iff, allWhiteSpace_trimStart. Qed.

Lemma blank_test_iff (q : Text) :
  isEmpty (trim q) = true <-> allWhiteSpace q.
Proof. now rewrite isEmpty_iff, trim_empty_iff. Qed.

Lemma blank_test_false_iff (q : Text) :
  isEmpty (trim q) = false <-> ~ allWhiteSpace q.
Proof. now rewrite <- blank_test_iff, not_true_iff_false. Qed.

Lemma allWhiteSpace_app (a b : Text) :
  allWhiteSpace (a ++ b) <-> allWhiteSpace a /\ allWhiteSpace b.
Proof. unfold allWhiteSpace. now rewrite forallb_app, andb_true_iff. Qed.

Lemma latin1_app (a b : Text) : latin1 (a ++ b) <-> latin1 a /\ latin1 b.
Proof. apply Forall_app. Qed.

Lemma latin1_text (s : string) : latin1 (text s).
Proof.
  unfold latin1, text. apply Forall_forall. intros u Hu.
  apply in_map_iff in Hu. destruct Hu as [c [<- _]].
  apply N_ascii_bounded.
Qed.

End TextLemmas.

(** What holds of every [toLowerCase] that lower-cases text over
    U+0000..U+00FF code unit by code unit. *)
Section Latin1.

Variable toLowerCase : Text -> Text.
Hypothesis byUnit : lowersLatin1ByUnit toLowerCase.

(** On text over U+0000..U+00FF, [includes] on the lower-cased texts
    decides the specification's case-insensitive occurrence. *)
Lemma includes_lower_iff (s q : Text) :
  latin1 s ->
  (includes (toLowerCase s) (toLowerCase q) = true
   <-> occursIgnoringCase toLowerCase q s).
Proof.
  intros Hs. rewrite includes_iff.
  unfold isSubstring, occursIgnoringCase, equalIgnoringCase.
  rewrite (byUnit s Hs). split.
  - intros [a [b H]].
    apply map_eq_app in H. destruct H as [pre [rest [-> [Ha Hr]]]].
    apply map_eq_app in Hr. destruct Hr as [mid [post [-> [Hm Hp]]]].
    exists pre, mid, post. split; [reflexivity|].
    apply latin1_app in Hs. destruct Hs as [_ Hs].
    apply latin1_app in Hs. destruct Hs as [Hmid _].
    now rewrite (byUnit mid Hmid).
  - intros [pre [mid [post [-> Hm]]]].
    apply latin1_app in Hs. destruct Hs as [_ Hs].
    apply latin1_app in Hs. destruct Hs as [Hmid _].
    exists (map lowerUnit pre), (map lowerUnit post).
    now rewrite !map_app, <- Hm, (byUnit mid Hmid).
Qed.

Lemma loweredQueryIn_latin1 (q : Text) (n : Note) :
  latin1 (title n) -> latin1 (content n) ->
  (loweredQueryIn toLowerCase q n <-> noteMatches toLowerCase q n).
Proof.
  intros Ht Hc. unfold loweredQueryIn, noteMatches.
  now rewrite <- !includes_iff, !includes_lower_iff.
Qed.

End Latin1.

(** The lower-casing used on concrete input has the two facts. *)
Section Sample.

Lemma isWhiteSpace_false (u : N) :
  (33 <= u <= 159 \/ 161 <= u <= 5759)%N -> isWhiteSpace u = false.
Proof.
  intros H. unfold isWhiteSpace.
  repeat (apply orb_false_intro);
    try (apply N.eqb_neq; lia);
    apply andb_false_iff;
    solve [ left; apply N.leb_gt; lia | right; apply N.leb_gt; lia ].
Qed.

Lemma isWhiteSpace_lowerUnit (u : N) :
  isWhiteSpace (lowerUnit u) = isWhiteSpace u.
Proof.
  unfold lowerUnit.
  destruct (((65 <=? u) && (u <=? 90)
             || (192 <=? u) && (u <=? 222) && negb (u =? 215))%N) eqn:E;
    [|reflexivity].
  assert (R : (65 <= u <= 90 \/ 192 <= u <= 222)%N).
  { apply orb_true_iff in E. destruct E as [E | E].
    - apply andb_true_iff in E. destruct E as [E1 E2].
      apply N.leb_le in E1. apply N.leb_le in E2. lia.
    - apply andb_true_iff in E. destruct E as [E _].
      apply andb_true_iff in E. destruct E as [E1 E2].
      apply N.leb_le in E1. apply N.leb_le in E2. lia. }
  rewrite !isWhiteSpace_false by lia. reflexivity.
Qed.

Lemma lowerAfter_latin1 (b : bool) (s : Text) :
  latin1 s -> lowerAfter b s = map lowerUnit s.
Proof.
  revert b; induction s as [|u s IH]; intros b H; [reflexivity|].
  inversion H as [|x l Hu Hs]; subst. simpl.
  assert (E : (u =? 931)%N = false) by (apply N.eqb_neq; lia).
  rewrite E. f_equal. now apply IH.
Qed.

Lemma lowerAfter_blank (b : bool) (s : Text) :
  allWhiteSpace (lowerAfter b s) <-> allWhiteSpace s.
Proof.
  unfold allWhiteSpace. revert b; induction s as [|u s IH]; intros b;
    simpl; [tauto|].
  rewrite !andb_true_iff, IH.
  destruct (N.eqb_spec u 931) as [-> | _].
  - destruct (b && negb (nextIsCased s)); simpl; tauto.
  - now rewrite isWhiteSpace_lowerUnit.
Qed.

Lemma sample_byUnit : lowersLatin1ByUnit toLowerCaseSample.
Proof. intros s Hs. now apply lowerAfter_latin1. Qed.

Lemma sample_keepsBlank : lowerKeepsBlank toLowerCaseSample.
Proof. intros s. apply lowerAfter_blank. Qed.

End Sample.

(** Ids. *)
Section Ids.

Local Open Scope string_scope.

Lemma containsChar_app (c : ascii) (a b : string) :
  containsChar c (a ++ b) = containsChar c a || containsChar c b.
Proof.
  induction a as [|x a IH]; simpl; [reflexivity | now rewrite IH, orb_assoc].
Qed.

(** The text after the last ["-"] determines the split. *)
Lemma split_at_last_dash (a1 a2 b1 b2 : string) :
  containsChar "-" b1 = false ->
  containsChar "-" b2 = false ->
  a1 ++ "-" ++ b1 = a2 ++ "-" ++ b2 ->
  a1 = a2 /\ b1 = b2.
Proof.
  intros H1 H2. revert a2; induction a1 as [|x a1 IH]; intros [|y a2] H;
    simpl in H.
  - inversion H. now split.
  - inversion H as [[Hy Hb]]. subst b1.
    rewrite containsChar_app in H1. simpl in H1.
    rewrite orb_true_r in H1. discriminate.
  - inversion H as [[Hx Hb]]. subst b2.
    rewrite containsChar_app in H2. simpl in H2.
    rewrite orb_true_r in H2. discriminate.
  - inversion H as [[Hx Ht]]. destruct (IH _ Ht) as [-> ->]. now split.
Qed.

Lemma string_of_uint_no_dash (d : Decimal.uint) :
  containsChar "-" (NilEmpty.string_of_uint d) = false.
Proof. induction d; simpl; auto. Qed.

Lemma stringOfN_inj (m n : N) : stringOfN m = stringOfN n -> m = n.
Proof.
  unfold stringOfN. intros H.
  apply DecimalN.Unsigned.to_uint_inj.
  apply (f_equal NilEmpty.uint_of_string) in H.
  rewrite !NilEmpty.usu in H. now inversion H.
Qed.

Lemma stringOfZ_inj (x y : Z) : stringOfZ x = stringOfZ y -> x = y.
Proof.
  unfold stringOfZ. intros H.
  apply DecimalZ.to_int_inj.
  apply (f_equal NilEmpty.int_of_string) in H.
  rewrite !NilEmpty.isi in H. now inversion H.
Qed.

(** Two ids are equal only if [Date.now()] and the draw were equal. *)
Lemma generateId_inj (t1 t2 : Z) (r1 r2 : N) :
  generateId t1 r1 = generateId t2 r2 -> t1 = t2 /\ r1 = r2.
Proof.
  unfold generateId. intros H. simpl in H. inversion H as [H'].
  apply split_at_last_dash in H'.
  - destruct H' as [Ht Hr]. split.
    + now apply stringOfZ_inj.
    + now apply stringOfN_inj.
  - apply string_of_uint_no_dash.
  - apply string_of_uint_no_dash.
Qed.

End Ids.

(* ================================================================= *)
(** ** Lemmas on lists of notes *)

Section Lists.

Context {A : Type}.

Lemma keptInOrder_filter (p : A -> bool) (P : A -> Prop) (l : list A) :
  (forall x, p x = true <-> P x) -> keptInOrder P l (filter p l).
Proof.
  intros HpP. induction l as [|x l IH]; simpl.
  - constructor.
  - destruct (p x) eqn:E.
    + apply kio_keep; [now apply HpP | exact IH].
    + apply kio_drop; [|exact IH].
      intros HP. apply HpP in HP. congruence.
Qed.

Lemma keptInOrder_In (P : A -> Prop) (l r : list A) :
  keptInOrder P l r -> forall x, In x r <-> In x l /\ P x.
Proof.
  induction 1 as [|y l r Hy _ IH|y l r Hy _ IH]; intros x; simpl.
  - tauto.
  - rewrite IH. split.
    + intros [-> | [Hin HP]]; auto.
    + intros [[-> | Hin] HP]; auto.
  - rewrite IH. split.
    + intros [Hin HP]; auto.
    + intros [[-> | Hin] HP]; [contradiction | auto].
Qed.

Lemma filter_all (p : A -> bool) (l : list A) :
  (forall x, In x l -> p x = true) -> filter p l = l.
Proof.
  induction l as [|x l IH]; simpl; intros H; [reflexivity|].
  rewrite (H x (or_introl eq_refl)). f_equal. apply IH. auto.
Qed.

End Lists.

Lemma state_eta (st : State) :
  {| notes := notes st; selectedNoteId := selectedNoteId st |} = st.
Proof. now destruct st. Qed.

(* ================================================================= *)
(** ** Lemmas on the map of [handleUpdateNote] *)

Lemma updateNotes_unchanged (clock : nat -> Z) (k : nat) (i : string)
    (f : NewFields) (ns : list Note) :
  (forall n, In n ns -> id n <> i) -> updateNotes clock k i f ns = ns.
Proof.
  induction ns as [|n ns IH]; simpl; intros H; [reflexivity|].
  destruct (String.eqb_spec (id n) i) as [E | E].
  - exfalso. now apply (H n); [left|].
  - f_equal. apply IH. auto.
Qed.

Lemma updateNotes_length (clock : nat -> Z) (k : nat) (i : string)
    (f : NewFields) (ns : list Note) :
  List.length (updateNotes clock k i f ns) = List.length ns.
Proof.
  revert k; induction ns as [|n ns IH]; intros k; simpl; [reflexivity|].
  destruct (id n =? i)%string; simpl; now rewrite IH.
Qed.

Lemma updateNotes_ids (clock : nat -> Z) (k : nat) (i : string)
    (f : NewFields) (ns : list Note) :
  nf_id f = None -> map id (updateNotes clock k i f ns) = map id ns.
Proof.
  intros Hf. revert k; induction ns as [|n ns IH]; intros k; simpl;
    [reflexivity|].
  destruct (id n =? i)%string; simpl; rewrite IH; [now rewrite Hf|reflexivity].
Qed.

(** What the map leaves at each position: a note with another id as it
    was, a note with the id [i] rewritten and stamped with the reading
    taken for it, whose number is the number of matching notes before
    it. *)
Lemma updateNotes_nth (clock : nat -> Z) (k0 : nat) (i : string)
    (f : NewFields) (ns : list Note) (k : nat) :
  nth_error (updateNotes clock k0 i f ns) k =
  option_map
    (fun n => if (id n =? i)%string
              then setUpdated (spread n f)
                     (clock (k0 + matchesBefore i ns k)%nat)
              else n)
    (nth_error ns k).
Proof.
  revert k0 k; induction ns as [|n ns IH]; intros k0 k.
  - now destruct k.
  - destruct k as [|k]; unfold matchesBefore, matchCount; simpl.
    + destruct (id n =? i)%string; simpl; [|reflexivity].
      now rewrite Nat.add_0_r.
    + destruct (id n =? i)%string eqn:E; simpl; rewrite IH;
        unfold matchesBefore, matchCount; [|reflexivity].
      now rewrite Nat.add_succ_r.
Qed.

Lemma handleUpdateNote_nth (clock : nat -> Z) (i : string) (f : NewFields)
    (st : State) (k : nat) :
  nth_error (notes (handleUpdateNote clock i f st)) k =
  option_map
    (fun n => if (id n =? i)%string
              then setUpdated (spread n f)
                     (clock (matchesBefore i (notes st) k))
              else n)
    (nth_error (notes st) k).
Proof. unfold handleUpdateNote; simpl. apply updateNotes_nth. Qed.

(** A note of the result is a note of the collection or a matching note
    rewritten and stamped with one of the readings of the call. *)
Lemma updateNotes_In (clock : nat -> Z) (k0 : nat) (i : string)
    (f : NewFields) (ns : list Note) (n' : Note) :
  In n' (updateNotes clock k0 i f ns) ->
  In n' ns
  \/ exists n j,
       In n ns /\ n' = setUpdated (spread n f) (clock j)
       /\ (k0 <= j < k0 + matchCount i ns)%nat.
Proof.
  revert k0; induction ns as [|n ns IH]; intros k0; simpl; [tauto|].
  unfold matchCount; simpl.
  destruct (id n =? i)%string; simpl.
  - intros [<- | H].
    + right. exists n, k0. split; [now left|]. split; [reflexivity | lia].
    + destruct (IH _ H) as [Hin | [m [j [Hm [E Hj]]]]]; [auto|].
      right. exists m, j. unfold matchCount in Hj.
      split; [now right|]. split; [exact E | lia].
  - intros [<- | H]; [auto|].
    destruct (IH _ H) as [Hin | [m [j [Hm [E Hj]]]]]; [auto|].
    right. exists m, j. unfold matchCount in Hj.
    split; [now right|]. split; [exact E | lia].
Qed.

Lemma matchesBefore_lt (i : string) (ns : list Note) (k : nat) (n : Note) :
  nth_error ns k = Some n -> id n = i ->
  (matchesBefore i ns k < matchCount i ns)%nat.
Proof.
  unfold matchesBefore, matchCount.
  revert k; induction ns as [|m ns IH]; intros k Hk Hi.
  - now destruct k.
  - destruct k as [|k]; simpl in *.
    + inversion Hk; subst. rewrite String.eqb_refl. simpl. lia.
    + specialize (IH k Hk Hi). destruct (id m =? i)%string; simpl; lia.
Qed.

(* ================================================================= *)
(** ** updateNote: skip-if-unchanged (C1) *)

(** C1, as stated, fails: [handleUpdateNote] called with the title and
    the content the note already has still replaces the note's [updated]
    (here 10) by the clock reading (here 20). *)
Lemma handleUpdateNote_same_fields_bumps_updated :
  let n := mkNote "id-1-1" "Groceries" "milk" 10 10 in
  let st := mkState [n] (Some "id-1-1") in
  let st' := handleUpdateNote (fun _ => 20) "id-1-1"
               (titleContent (Some (text "Groceries")) (Some (text "milk")))
               st in
  map updated (notes st') = [20] /\ notes st' <> notes st.
Proof. simpl. split; [reflexivity | discriminate]. Qed.

(** C1 (amended). [handleUpdateNote] with an id that matches no note
    returns the state unchanged; the skip-if-unchanged policy is the
    guard of the editor's [handleSave], which leaves the state unchanged
    when the staged title and content equal the note's; [handleUpdateNote]
    itself, given the title and content a matching note already has,
    keeps every field of that note but [updated], which becomes the
    clock reading taken for that note. *)
Theorem update_noop (clock : nat -> Z) (i : string) (f : NewFields)
    (st : State) (note : Note) (t c : Text) :
  ((forall n, In n (notes st) -> id n <> i) ->
     handleUpdateNote clock i f st = st)
  /\ (t = title note -> c = content note ->
        handleSave clock note t c st = st)
  /\ (forall k n,
        nth_error (notes st) k = Some n ->
        id n = i -> title n = t -> content n = c ->
        nth_error
          (notes (handleUpdateNote clock i (titleContent (Some t) (Some c)) st))
          k = Some (setUpdated n (clock (matchesBefore i (notes st) k)))).
Proof.
  split; [|split].
  - intros Hno. unfold handleUpdateNote.
    rewrite updateNotes_unchanged by exact Hno. apply state_eta.
  - intros -> ->. unfold handleSave. now rewrite !eqText_refl.
  - intros k n Hk Hi Ht Hc. rewrite handleUpdateNote_nth, Hk. simpl.
    subst i t c. rewrite String.eqb_refl. now destruct n.
Qed.

Lemma update_noop_witness :
  handleUpdateNote (fun _ => 20) "id-9-9" (titleContent (Some (text "x")) None)
    (mkState [mkNote "id-1-1" "Groceries" "milk" 10 10] None)
  = mkState [mkNote "id-1-1" "Groceries" "milk" 10 10] None
  /\ handleSave (fun _ => 20) (mkNote "id-1-1" "Groceries" "milk" 10 10)
       "Groceries" "milk"
       (mkState [mkNote "id-1-1" "Groceries" "milk" 10 10] (Some "id-1-1"))
     = mkState [mkNote "id-1-1" "Groceries" "milk" 10 10] (Some "id-1-1")
  /\ nth_error
       (notes (handleUpdateNote (fun j => 20 + Z.of_nat j) "id-1-1"
                 (titleContent (Some (text "Groceries")) (Some (text "milk")))
                 (mkState [mkNote "id-1-1" "Groceries" "milk" 10 10;
                           mkNote "id-1-1" "Groceries" "milk" 10 10] None)))
       1
     = Some (mkNote "id-1-1" "Groceries" "milk" 10 21).
Proof.
  pose (n := mkNote "id-1-1" "Groceries" "milk" 10 10).
  split; [|split].
  - apply (proj1 (update_noop (fun _ => 20) "id-9-9"
                    (titleContent (Some (text "x")) None)
                    (mkState [n] None) n "Groceries" "milk")).
    simpl. intros m [<- | []]. discriminate.
  - apply (proj1 (proj2 (update_noop (fun _ => 20) "id-1-1"
                           (titleContent None None)
                           (mkState [n] (Some "id-1-1")) n
                           "Groceries" "milk")));
      reflexivity.
  - apply (proj2 (proj2 (update_noop (fun j => 20 + Z.of_nat j) "id-1-1"
                           (titleContent None None)
                           (mkState [n; n] None) n "Groceries" "milk"))
             1%nat n);
      reflexivity.
Defined.

(* ================================================================= *)
(** ** createNote: ids (C2) *)

Lemma assignedIds_seeds (ops : list Op) (st : State) :
  assignedIds ops st =
  map (fun p => generateId (fst p) (snd p)) (idSeeds ops).
Proof.
  revert st; induction ops as [|o ops IH]; intros st; [reflexivity|].
  unfold idSeeds in *. destruct o; simpl; now rewrite IH.
Qed.

(** C2, as stated, fails: two [createNote] calls that read the same
    [Date.now()] and draw the same number are given the same id. *)
Lemma create_twice_same_id :
  let ops := [CreateNote 1000 1000 7; CreateNote 1000 1000 7] in
  map id (notes (run ops initialState)) = ["id-1000-7"; "id-1000-7"]
  /\ ~ NoDup (assignedIds ops initialState).
Proof.
  split; [reflexivity|].
  intros H. inversion H as [|x l Hin _]; subst. apply Hin. now left.
Qed.

(** C2 (amended). The ids assigned during a session are pairwise
    distinct exactly when no two [createNote] calls of the session read
    the same [Date.now()] value and draw the same random number; this
    holds whatever other operations (deletions included) come between. *)
Theorem assigned_ids_distinct (ops : list Op) (st : State) :
  NoDup (idSeeds ops) <-> NoDup (assignedIds ops st).
Proof.
  rewrite assignedIds_seeds. split.
  - apply Injective_map_NoDup.
    intros [t1 r1] [t2 r2] H. simpl in H.
    apply generateId_inj in H. destruct H; now subst.
  - apply NoDup_map_inv.
Qed.

Lemma assigned_ids_distinct_witness :
  NoDup (assignedIds
           [CreateNote 1000 1000 7; DeleteNote "id-1000-7";
            CreateNote 1001 1001 7]
           initialState).
Proof.
  apply (proj1 (assigned_ids_distinct
                  [CreateNote 1000 1000 7; DeleteNote "id-1000-7";
                   CreateNote 1001 1001 7]
                  initialState)).
  simpl. repeat constructor; simpl; intuition discriminate.
Defined.

(* ================================================================= *)
(** ** createNote: the new note (C3, C7) *)

(** C3, as stated, fails: the note created in the empty collection has
    the title ["Untitled Note"], not the empty string. *)
Lemma create_from_empty_title :
  map title (notes (handleCreateNote 1000 1000 7 initialState))
  = [text "Untitled Note"]
  /\ map title (notes (handleCreateNote 1000 1000 7 initialState))
     <> [text ""].
Proof. split; [reflexivity | discriminate]. Qed.

(** C3 (amended). From the empty collection, one [createNote] at time
    [now] yields a collection of exactly one note, whose title is
    ["Untitled Note"], whose content is the empty string and whose
    [created] and [updated] both equal [now]; the selected id is that
    note's id. *)
Theorem create_from_empty (now dateNow : Z) (rnd : N) :
  exists n,
    handleCreateNote now dateNow rnd initialState
    = {| notes := [n]; selectedNoteId := Some (id n) |}
    /\ title n = "Untitled Note"
    /\ content n = ""
    /\ created n = now
    /\ updated n = now.
Proof. eexists. repeat split. Qed.

(** C7. After [createNote] the new note is at index 0 of the collection,
    the notes that existed before follow it in their prior order, and
    the selected id is the new note's id. *)
Theorem create_prepends_and_selects (now dateNow : Z) (rnd : N) (st : State) :
  exists n,
    notes (handleCreateNote now dateNow rnd st) = n :: notes st
    /\ nth_error (notes (handleCreateNote now dateNow rnd st)) 0 = Some n
    /\ selectedNoteId (handleCreateNote now dateNow rnd st) = Some (id n).
Proof. eexists. repeat split. Qed.

(* ================================================================= *)
(** ** filterNotes (C4) *)

Lemma matchesQuery_iff (toLowerCase : Text -> Text) (q : Text) (n : Note) :
  matchesQuery toLowerCase (toLowerCase q) n = true
  <-> loweredQueryIn toLowerCase q n.
Proof.
  unfold matchesQuery, loweredQueryIn.
  now rewrite orb_true_iff, !includes_iff.
Qed.

(** C4, as stated, fails: the query is matched after lower-casing, and
    lower-casing depends on the position of a letter. The title "AΣ"
    (A, GREEK CAPITAL LETTER SIGMA) contains the query "Σ" as it is,
    yet its lower case ends in the final sigma U+03C2 while the lower
    case of the query is U+03C3, and the note is dropped. *)
Lemma filter_drops_final_sigma :
  let n := mkNote "id-1-1" [65; 931]%N "" 10 10 in
  let q := [931%N] in
  ~ allWhiteSpace q
  /\ title n = [65%N] ++ q ++ []
  /\ noteMatches toLowerCaseSample q n
  /\ toLowerCaseSample (title n) = [97; 962]%N
  /\ toLowerCaseSample q = [963%N]
  /\ filteredNotes toLowerCaseSample q [n] = [].
Proof.
  simpl. repeat split; try reflexivity; [discriminate|].
  left. exists [65%N], [931%N], []. split; reflexivity.
Qed.

(** C4, as stated, also fails on a query that is not empty but all
    whitespace: for the query [" "] every note is returned, also one
    whose title and content contain no space. *)
Lemma filter_blank_query_keeps_all :
  let n := mkNote "id-1-1" "Groceries" "milk" 10 10 in
  text " " <> text ""
  /\ In n (filteredNotes toLowerCaseSample " " [n])
  /\ ~ noteMatches toLowerCaseSample " " n.
Proof.
  simpl. split; [discriminate | split; [now left |]].
  intros H.
  apply (loweredQueryIn_latin1 _ sample_byUnit) in H;
    try apply latin1_text.
  apply matchesQuery_iff in H. discriminate H.
Qed.

(** C4 (amended). When the query is empty or all whitespace,
    [filterNotes] returns the collection unchanged. For every other
    query the result consists of exactly the notes for which the
    lower-cased query is a substring of the lower-cased title or of the
    lower-cased content, in the order they have in the collection. For a
    note whose title and content are text over U+0000..U+00FF, where
    lower-casing acts code unit by code unit, that is exactly when the
    query occurs in the title or the content as a substring up to
    letter case. *)
Theorem filteredNotes_spec (toLowerCase : Text -> Text) (q : Text)
    (ns : list Note) :
  (allWhiteSpace q -> filteredNotes toLowerCase q ns = ns)
  /\ (~ allWhiteSpace q ->
        keptInOrder (loweredQueryIn toLowerCase q) ns
          (filteredNotes toLowerCase q ns)
        /\ forall n, In n (filteredNotes toLowerCase q ns)
                     <-> In n ns /\ loweredQueryIn toLowerCase q n)
  /\ (lowersLatin1ByUnit toLowerCase ->
      forall n, latin1 (title n) -> latin1 (content n) ->
                (loweredQueryIn toLowerCase q n
                 <-> noteMatches toLowerCase q n)).
Proof.
  split; [|split].
  - intros Hq. unfold filteredNotes.
    apply blank_test_iff in Hq. now rewrite Hq.
  - intros Hq. unfold filteredNotes.
    apply blank_test_false_iff in Hq. rewrite Hq.
    assert (K : keptInOrder (loweredQueryIn toLowerCase q) ns
                  (filter (matchesQuery toLowerCase (toLowerCase q)) ns))
      by (apply keptInOrder_filter; intros n; apply matchesQuery_iff).
    split; [exact K | now apply keptInOrder_In].
  - intros H n. now apply loweredQueryIn_latin1.
Qed.

Lemma filteredNotes_spec_witness :
  let a := mkNote "id-1-1" "Groceries" "Milk, eggs" 10 10 in
  let b := mkNote "id-2-2" "Untitled Note" "" 20 20 in
  filteredNotes toLowerCaseSample "  " [b; a] = [b; a]
  /\ keptInOrder (loweredQueryIn toLowerCaseSample "milk") [b; a]
       (filteredNotes toLowerCaseSample "milk" [b; a])
  /\ (loweredQueryIn toLowerCaseSample "milk" a
      <-> noteMatches toLowerCaseSample "milk" a).
Proof.
  intros a b. split; [|split].
  - apply (proj1 (filteredNotes_spec toLowerCaseSample "  " [b; a])).
    reflexivity.
  - apply (proj1 (proj2 (filteredNotes_spec toLowerCaseSample "milk" [b; a]))).
    discriminate.
  - apply (proj2 (proj2 (filteredNotes_spec toLowerCaseSample "milk" [b; a]))
             sample_byUnit a); apply latin1_text.
Defined.

(* ================================================================= *)
(** ** deleteNote (C5) *)

(** C5, as stated, fails in its last clause: when the selected id is an
    id that matches no note (as after selecting an id that does not
    exist), deleting that id leaves the collection unchanged but clears
    the selection. *)
Lemma delete_dangling_selection_cleared :
  let st := run [CreateNote 10 10 2; SelectNote (Some "id-1-1")] initialState in
  (forall n, In n (notes st) -> id n <> "id-1-1")
  /\ notes (handleDeleteNote "id-1-1" st) = notes st
  /\ selectedNoteId st = Some "id-1-1"
  /\ selectedNoteId (handleDeleteNote "id-1-1" st) = None.
Proof.
  simpl. repeat split. intros n [<- | []]. discriminate.
Qed.

(** C5 (amended). [deleteNote i] keeps exactly the notes whose id is not
    [i], in their order. If [i] is the selected id the selection becomes
    none, otherwise the selection is unchanged. If [i] matches no note
    the collection is unchanged (and the selection is unchanged unless
    [i] is the selected id). *)
Theorem delete_spec (i : string) (st : State) :
  keptInOrder (fun n => id n <> i) (notes st) (notes (handleDeleteNote i st))
  /\ (selectedNoteId st = Some i ->
        selectedNoteId (handleDeleteNote i st) = None)
  /\ (selectedNoteId st <> Some i ->
        selectedNoteId (handleDeleteNote i st) = selectedNoteId st)
  /\ ((forall n, In n (notes st) -> id n <> i) ->
        notes (handleDeleteNote i st) = notes st).
Proof.
  assert (R : forall n : Note, negb (id n =? i)%string = true <-> id n <> i).
  { intros n. rewrite negb_true_iff. apply String.eqb_neq. }
  unfold handleDeleteNote; simpl. repeat split.
  - now apply keptInOrder_filter.
  - intros ->. simpl. now rewrite String.eqb_refl.
  - intros Hne. destruct (selectedNoteId st) as [s|]; simpl; [|reflexivity].
    destruct (String.eqb_spec i s) as [-> | _]; [now contradiction Hne|].
    reflexivity.
  - intros Hno. apply filter_all. intros n Hn. apply R. now apply Hno.
Qed.

Lemma delete_spec_witness :
  let a := mkNote "id-1-1" "Groceries" "milk" 10 10 in
  let b := mkNote "id-2-2" "Untitled Note" "" 20 20 in
  selectedNoteId (handleDeleteNote "id-2-2" (mkState [b; a] (Some "id-2-2")))
  = None
  /\ selectedNoteId (handleDeleteNote "id-1-1" (mkState [b; a] (Some "id-2-2")))
     = Some "id-2-2"
  /\ notes (handleDeleteNote "id-3-3" (mkState [b; a] (Some "id-2-2")))
     = [b; a].
Proof.
  intros a b. split; [|split].
  - apply (proj1 (proj2 (delete_spec "id-2-2" (mkState [b; a] (Some "id-2-2"))))).
    reflexivity.
  - apply (proj1 (proj2 (proj2
             (delete_spec "id-1-1" (mkState [b; a] (Some "id-2-2")))))).
    discriminate.
  - apply (proj2 (proj2 (proj2
             (delete_spec "id-3-3" (mkState [b; a] (Some "id-2-2")))))).
    simpl. intros n [<- | [<- | []]]; discriminate.
Defined.

(* ================================================================= *)
(** ** updateNote: what it leaves alone (C10) *)

(** What [updateNote] with fields [{title?, content?}] does to a note
    that has the given id. *)
Lemma update_matching (clock : nat -> Z) (i : string) (t c : option Text)
    (st : State) (k : nat) (n : Note) :
  nth_error (notes st) k = Some n ->
  id n = i ->
  nth_error (notes (handleUpdateNote clock i (titleContent t c) st)) k
  = Some {| id := id n; title := orElse t (title n);
            content := orElse c (content n);
            created := created n;
            updated := clock (matchesBefore i (notes st) k) |}.
Proof.
  intros Hk Hi. rewrite handleUpdateNote_nth, Hk. simpl.
  subst i. now rewrite String.eqb_refl.
Qed.

(** Whatever object is passed as [newFields], the collection keeps its
    length and the notes with another id stay as they are. *)
Lemma handleUpdateNote_others (clock : nat -> Z) (i : string) (f : NewFields)
    (st : State) :
  List.length (notes (handleUpdateNote clock i f st)) = List.length (notes st)
  /\ forall k n,
       nth_error (notes st) k = Some n ->
       id n <> i ->
       nth_error (notes (handleUpdateNote clock i f st)) k = Some n.
Proof.
  split.
  - unfold handleUpdateNote; simpl. apply updateNotes_length.
  - intros k n Hk Hne. rewrite handleUpdateNote_nth, Hk. simpl.
    apply String.eqb_neq in Hne. now rewrite Hne.
Qed.

(** The ids keep their order as long as [newFields] carries no [id]. *)
Lemma handleUpdateNote_ids (clock : nat -> Z) (i : string) (f : NewFields)
    (st : State) :
  nf_id f = None ->
  map id (notes (handleUpdateNote clock i f st)) = map id (notes st).
Proof. intros Hf. unfold handleUpdateNote; simpl. now apply updateNotes_ids. Qed.

(** C10. [updateNote] with fields [{title?, content?}] keeps the length
    of the collection and the order of the note ids, leaves every note
    whose id differs from the given id as it was, at its position, and
    leaves the selection as it was. *)
Theorem update_frame (clock : nat -> Z) (i : string) (t c : option Text)
    (st : State) :
  List.length (notes (handleUpdateNote clock i (titleContent t c) st))
  = List.length (notes st)
  /\ map id (notes (handleUpdateNote clock i (titleContent t c) st))
     = map id (notes st)
  /\ (forall k n,
        nth_error (notes st) k = Some n ->
        id n <> i ->
        nth_error (notes (handleUpdateNote clock i (titleContent t c) st)) k
        = Some n)
  /\ selectedNoteId (handleUpdateNote clock i (titleContent t c) st)
     = selectedNoteId st.
Proof.
  destruct (handleUpdateNote_others clock i (titleContent t c) st)
    as [Hlen Hoth].
  repeat split.
  - exact Hlen.
  - now apply handleUpdateNote_ids.
  - exact Hoth.
Qed.

Lemma update_frame_witness :
  nth_error
    (notes (handleUpdateNote (fun _ => 20) "id-1-1"
              (titleContent (Some (text "X")) None)
              (mkState [mkNote "id-2-2" "Untitled Note" "" 15 15;
                        mkNote "id-1-1" "Y" "milk" 10 10] None)))
    0
  = Some (mkNote "id-2-2" "Untitled Note" "" 15 15).
Proof.
  apply (proj1 (proj2 (proj2
           (update_frame (fun _ => 20) "id-1-1" (Some (text "X")) None
              (mkState [mkNote "id-2-2" "Untitled Note" "" 15 15;
                        mkNote "id-1-1" "Y" "milk" 10 10] None)))) 0%nat).
  - reflexivity.
  - discriminate.
Defined.

(* ================================================================= *)
(** ** resolveActiveNote (C9) *)

Lemma strictEq_true_iff (a : string) (b : option string) :
  strictEq a b = true <-> b = Some a.
Proof.
  destruct b as [s|]; simpl.
  - rewrite String.eqb_eq. split; [now intros -> | now intros [= ->]].
  - split; discriminate.
Qed.

Lemma selectedNote_none_iff (ns : list Note) (sel : option string) :
  selectedNote ns sel = None <-> forall n, In n ns -> sel <> Some (id n).
Proof.
  unfold selectedNote. induction ns as [|x ns IH]; simpl.
  - split; [intros _ n [] | reflexivity].
  - destruct (strictEq (id x) sel) eqn:E.
    + apply strictEq_true_iff in E. split; [discriminate|].
      intros H. exfalso. apply (H x); auto.
    + rewrite IH. split.
      * intros H n [<- | Hn]; [|now apply H].
        intros Hs. apply strictEq_true_iff in Hs. congruence.
      * intros H n Hn. apply H. now right.
Qed.

Lemma selectedNote_first (ns : list Note) (sel : option string) (n : Note) :
  selectedNote ns sel = Some n ->
  exists pre post,
    ns = (pre ++ n :: post)%list /\ sel = Some (id n)
    /\ forall m, In m pre -> id m <> id n.
Proof.
  unfold selectedNote. induction ns as [|x ns IH]; simpl; [discriminate|].
  destruct (strictEq (id x) sel) eqn:E.
  - intros [= ->]. apply strictEq_true_iff in E.
    exists [], ns. repeat split; [exact E | intros m []].
  - intros H. destruct (IH H) as [pre [post [-> [Hs Hpre]]]].
    exists (x :: pre), post. repeat split; [exact Hs|].
    intros m [<- | Hm]; [|now apply Hpre].
    intros Hx. rewrite <- Hx in Hs. apply strictEq_true_iff in Hs. congruence.
Qed.

(** C9. [resolveActiveNote] is defined on every collection and every
    selected id, the empty collection and the null id included. It
    returns none exactly when the id is null or matches no note;
    otherwise it returns the first note, in collection order, whose id
    is the selected id, which is the only such note when one note alone
    has that id. *)
Theorem resolve_spec (ns : list Note) (sel : option string) :
  selectedNote [] sel = None
  /\ selectedNote ns None = None
  /\ (selectedNote ns sel = None <->
        forall n, In n ns -> sel <> Some (id n))
  /\ (forall n,
        selectedNote ns sel = Some n ->
        exists pre post,
          ns = (pre ++ n :: post)%list /\ sel = Some (id n)
          /\ forall m, In m pre -> id m <> id n)
  /\ (forall n,
        In n ns -> sel = Some (id n) ->
        (forall m, In m ns -> id m = id n -> m = n) ->
        selectedNote ns sel = Some n).
Proof.
  split; [reflexivity|]. split.
  { apply selectedNote_none_iff. intros n _. discriminate. }
  split; [apply selectedNote_none_iff|]. split.
  - intros n. apply selectedNote_first.
  - intros n Hn Hs Huniq.
    destruct (selectedNote ns sel) as [m|] eqn:E.
    + destruct (selectedNote_first _ _ _ E) as [pre [post [Hns [Hm _]]]].
      f_equal. apply Huniq.
      * rewrite Hns. apply in_or_app. right. now left.
      * congruence.
    + exfalso. now apply (proj1 (selectedNote_none_iff ns sel) E n Hn).
Qed.

Lemma resolve_spec_witness :
  let a := mkNote "id-1-1" "Groceries" "milk" 10 10 in
  let b := mkNote "id-2-2" "Untitled Note" "" 20 20 in
  selectedNote [b; a] (Some "id-1-1") = Some a.
Proof.
  intros a b.
  apply (proj2 (proj2 (proj2 (proj2 (resolve_spec [b; a] (Some "id-1-1")))))).
  - simpl. auto.
  - reflexivity.
  - simpl. intros m [<- | [<- | []]]; [discriminate | reflexivity].
Defined.

(* ================================================================= *)
(** ** Timestamps along a session (C8) *)

(** A run of readings inside a non-decreasing sequence lies between the
    reading before it and the last of its own. *)
Lemma nondecreasingFrom_app (t : Z) (rs rest : list Z) :
  nondecreasingFrom t (rs ++ rest) ->
  exists t',
    t <= t' /\ (forall r, In r rs -> t <= r /\ r <= t')
    /\ nondecreasingFrom t' rest.
Proof.
  revert t; induction rs as [|r rs IH]; intros t H; simpl in H.
  - exists t. split; [lia|]. split; [intros x [] | exact H].
  - destruct H as [Htr H]. destruct (IH r H) as [t' [Ht' [Hin Hrest]]].
    exists t'. split; [lia|]. split; [|exact Hrest].
    intros x [<- | Hx]; [lia|]. destruct (Hin x Hx). lia.
Qed.

(** One call keeps the timestamps ordered and moves the clock to the
    call's last reading. *)
Lemma step_stampsOrdered (o : Op) (st : State) (t : Z) (rest : list Z) :
  stampsOrdered t st ->
  nondecreasingFrom t (clockReadings st o ++ rest) ->
  exists t', stampsOrdered t' (step st o) /\ nondecreasingFrom t' rest.
Proof.
  intros Hinv Hclock. destruct o as [now dateNow rnd | clock i tt c | i | i].
  - simpl in Hclock. destruct Hclock as [H1 [H2 H3]].
    exists dateNow. split; [|exact H3].
    intros n [<- | Hn]; simpl; [lia|].
    destruct (Hinv n Hn). lia.
  - cbn [clockReadings] in Hclock.
    destruct (nondecreasingFrom_app _ _ _ Hclock) as [t' [Ht' [Hin Hrest]]].
    exists t'. split; [|exact Hrest].
    intros n Hn. cbn [step] in Hn. unfold handleUpdateNote in Hn.
    simpl in Hn. apply updateNotes_In in Hn.
    destruct Hn as [Hn | [m [j [Hm [-> Hj]]]]].
    + destruct (Hinv n Hn). lia.
    + destruct (Hinv m Hm) as [Hc Hu]. simpl.
      assert (Hr : In (clock j) (map clock (seq 0 (matchCount i (notes st))))).
      { apply in_map, in_seq. lia. }
      destruct (Hin _ Hr). lia.
  - exists t. split; [|exact Hclock].
    intros n Hn. simpl in Hn. apply filter_In in Hn. now apply Hinv.
  - exists t. split; [|exact Hclock]. exact Hinv.
Qed.

Lemma run_stampsOrdered (ops : list Op) (st : State) (t : Z) (rest : list Z) :
  stampsOrdered t st ->
  nondecreasingFrom t (sessionReadings ops st ++ rest) ->
  exists t', stampsOrdered t' (run ops st) /\ nondecreasingFrom t' rest.
Proof.
  revert st t; induction ops as [|o ops IH]; intros st t Hinv Hclock.
  - now exists t.
  - simpl in Hclock. rewrite <- app_assoc in Hclock.
    destruct (step_stampsOrdered o st t _ Hinv Hclock) as [t' [Hinv' Hclock']].
    simpl. now apply (IH (step st o) t').
Qed.

Lemma nondecreasing_from (rs : list Z) :
  nondecreasing rs -> exists t, nondecreasingFrom t rs.
Proof.
  destruct rs as [|r rs]; simpl.
  - now exists 0.
  - intros H. exists r. split; [lia | exact H].
Qed.

Lemma sessionReadings_app (ops : list Op) (o : Op) (st : State) :
  sessionReadings (ops ++ [o]) st
  = sessionReadings ops st ++ clockReadings (run ops st) o.
Proof.
  revert st; induction ops as [|x ops IH]; intros st; simpl.
  - now rewrite app_nil_r.
  - now rewrite IH, app_assoc.
Qed.

(** In a session whose clock never runs backwards, the readings of an
    update are no earlier than the [updated] of any note it meets. *)
Lemma updated_le_next_reading (ops : list Op) (clock : nat -> Z) (i : string)
    (t c : option Text) :
  monotoneClock (ops ++ [UpdateNote clock i t c]) ->
  forall n j,
    In n (notes (run ops initialState)) ->
    (j < matchCount i (notes (run ops initialState)))%nat ->
    updated n <= clock j.
Proof.
  intros Hclock n j Hn Hj. apply nondecreasing_from in Hclock.
  destruct Hclock as [t0 Hclock]. rewrite sessionReadings_app in Hclock.
  destruct (run_stampsOrdered ops initialState t0 _ (fun m (F : In m []) =>
              match F with end) Hclock) as [t' [Hinv Hlast]].
  cbn [clockReadings] in Hlast.
  rewrite <- (app_nil_r (map clock _)) in Hlast.
  destruct (nondecreasingFrom_app _ _ _ Hlast) as [t'' [_ [Hin _]]].
  assert (Hr : In (clock j)
                 (map clock (seq 0 (matchCount i (notes (run ops initialState))))))
    by (apply in_map, in_seq; lia).
  destruct (Hin _ Hr). destruct (Hinv n Hn). lia.
Qed.

(** C8. In every state reached from the initial state by a sequence of
    [createNote], [updateNote], [deleteNote] and [selectNote] calls
    during which the clock never runs backwards, every note's [updated]
    is at least its [created]. *)
Theorem updated_ge_created (ops : list Op) :
  monotoneClock ops ->
  forall n, In n (notes (run ops initialState)) -> created n <= updated n.
Proof.
  intros Hclock n Hn. apply nondecreasing_from in Hclock.
  destruct Hclock as [t0 Hclock].
  rewrite <- (app_nil_r (sessionReadings _ _)) in Hclock.
  destruct (run_stampsOrdered ops initialState t0 _ (fun m (F : In m []) =>
              match F with end) Hclock) as [t' [Hinv _]].
  now destruct (Hinv n Hn).
Qed.

Lemma updated_ge_created_witness :
  Forall (fun n => created n <= updated n)
    (notes (run [CreateNote 10 10 1;
                 CreateNote 10 10 1;
                 UpdateNote (fun j => 20 + Z.of_nat j) "id-10-1"
                   (Some (text "Groceries")) (Some (text "milk"));
                 CreateNote 30 31 2;
                 DeleteNote "id-31-2"]
              initialState)).
Proof.
  apply Forall_forall.
  apply (updated_ge_created
           [CreateNote 10 10 1;
            CreateNote 10 10 1;
            UpdateNote (fun j => 20 + Z.of_nat j) "id-10-1"
              (Some (text "Groceries")) (Some (text "milk"));
            CreateNote 30 31 2;
            DeleteNote "id-31-2"]).
  unfold monotoneClock; simpl. lia.
Defined.

(* ================================================================= *)
(** ** updateNote: the committed change (C6) *)

Lemma run_snoc (ops : list Op) (o : Op) (st : State) :
  run (ops ++ [o]) st = step (run ops st) o.
Proof. unfold run. now rewrite fold_left_app. Qed.

(** C6, as stated, fails in its clause on [updated]: the new value is
    the reading of the wall clock, and when the clock was set back after
    the note was last stamped (here from 2000 to 1500) the new [updated]
    is below the prior one. *)
Lemma update_after_clock_set_back :
  let st := run [CreateNote 1000 1000 1;
                 UpdateNote (fun _ => 2000) "id-1000-1" (Some (text "Y")) None]
              initialState in
  let st' := handleUpdateNote (fun _ => 1500) "id-1000-1"
               (titleContent (Some (text "X")) None) st in
  map updated (notes st) = [2000]
  /\ map updated (notes st') = [1500]
  /\ ~ (2000 <= 1500).
Proof. simpl. repeat split. lia. Qed.

(** C6 (amended). For every collection and every note of it that has the
    given id, [updateNote] with fields [{title?, content?}] replaces each
    supplied field, keeps each field that is not supplied, keeps id and
    [created], and sets [updated] to the clock reading taken for that
    note (the code reads the clock once per matching note, in collection
    order); so [updateNote(id, {title: X})] makes the title [X] and
    keeps the content. In a session whose clock never runs backwards,
    that reading is at least the note's prior [updated]. *)
Theorem update_commits (clock : nat -> Z) (i : string) (t c : option Text) :
  (forall st k n,
     nth_error (notes st) k = Some n ->
     id n = i ->
     exists n',
       nth_error (notes (handleUpdateNote clock i (titleContent t c) st)) k
       = Some n'
       /\ match t with Some x => title n' = x | None => title n' = title n end
       /\ match c with
          | Some x => content n' = x
          | None => content n' = content n
          end
       /\ id n' = id n /\ created n' = created n
       /\ updated n' = clock (matchesBefore i (notes st) k))
  /\ (forall ops k n,
        monotoneClock (ops ++ [UpdateNote clock i t c]) ->
        nth_error (notes (run ops initialState)) k = Some n ->
        id n = i ->
        exists n',
          nth_error
            (notes (run (ops ++ [UpdateNote clock i t c]) initialState)) k
          = Some n'
          /\ updated n <= updated n').
Proof.
  split.
  - intros st k n Hk Hi. eexists.
    split; [exact (update_matching clock i t c st k n Hk Hi)|].
    destruct t, c; repeat split.
  - intros ops k n Hclock Hk Hi. rewrite run_snoc. cbn [step].
    eexists. split; [exact (update_matching clock i t c _ k n Hk Hi)|]. simpl.
    apply (updated_le_next_reading ops clock i t c Hclock).
    + now apply nth_error_In with k.
    + now apply matchesBefore_lt with n.
Qed.

Lemma update_commits_witness :
  (exists n',
     nth_error
       (notes (handleUpdateNote (fun j => 20 + Z.of_nat j) "id-1-1"
                 (titleContent (Some (text "X")) None)
                 (mkState [mkNote "id-1-1" "Untitled Note" "" 15 15;
                           mkNote "id-1-1" "Y" "milk" 10 10] None)))
       1
     = Some n'
     /\ title n' = "X" /\ content n' = "milk"
     /\ id n' = "id-1-1" /\ created n' = 10
     /\ updated n' = 21)
  /\ (exists n',
        nth_error
          (notes (run ([CreateNote 1000 1000 1]
                       ++ [UpdateNote (fun _ => 2000) "id-1000-1"
                             (Some (text "X")) None])
                    initialState))
          0
        = Some n'
        /\ 1000 <= updated n').
Proof.
  split.
  - apply (proj1 (update_commits (fun j => 20 + Z.of_nat j) "id-1-1"
                    (Some (text "X")) None)
             (mkState [mkNote "id-1-1" "Untitled Note" "" 15 15;
                       mkNote "id-1-1" "Y" "milk" 10 10] None)
             1%nat (mkNote "id-1-1" "Y" "milk" 10 10) eq_refl eq_refl).
  - apply (proj2 (update_commits (fun _ => 2000) "id-1000-1"
                    (Some (text "X")) None)
             [CreateNote 1000 1000 1] 0%nat
             (mkNote "id-1000-1" "Untitled Note" "" 1000 1000)).
    + unfold monotoneClock; simpl. lia.
    + reflexivity.
    + reflexivity.
Defined.

(* ================================================================= *)
(** ** Further properties: list helpers *)

Section MoreLists.

Context {A : Type}.

Lemma find_filter_implied (p q : A -> bool) (l : list A) :
  (forall x, p x = true -> q x = true) ->
  find p (filter q l) = find p l.
Proof.
  intros Hpq. induction l as [|x l IH]; simpl; [reflexivity|].
  destruct (q x) eqn:Eq; simpl.
  - destruct (p x); [reflexivity | exact IH].
  - destruct (p x) eqn:Ep; [|exact IH].
    apply Hpq in Ep. congruence.
Qed.

Lemma find_filter_excluded (p q : A -> bool) (l : list A) :
  (forall x, p x = true -> q x = false) ->
  find p (filter q l) = None.
Proof.
  intros Hpq. induction l as [|x l IH]; simpl; [reflexivity|].
  destruct (q x) eqn:Eq; simpl; [|exact IH].
  destruct (p x) eqn:Ep; [|exact IH].
  apply Hpq in Ep. congruence.
Qed.

Lemma filter_twice_implied (p q : A -> bool) (l : list A) :
  (forall x, p x = true -> q x = true) ->
  filter p (filter q l) = filter p l.
Proof.
  intros Hpq. induction l as [|x l IH]; simpl; [reflexivity|].
  destruct (q x) eqn:Eq; simpl.
  - destruct (p x); [now rewrite IH | exact IH].
  - destruct (p x) eqn:Ep; [|exact IH].
    apply Hpq in Ep. congruence.
Qed.

Lemma filter_swap (p q : A -> bool) (l : list A) :
  filter p (filter q l) = filter q (filter p l).
Proof.
  induction l as [|x l IH]; simpl; [reflexivity|].
  destruct (q x) eqn:Eq, (p x) eqn:Ep; simpl;
    rewrite ?Eq, ?Ep, ?IH; reflexivity.
Qed.

End MoreLists.

Lemma updateCallback_other (now now' : Z) (i : string) (f : NewFields)
    (n : Note) :
  id n <> i -> updateCallback now i f n = updateCallback now' i f n.
Proof.
  intros H. unfold updateCallback. apply String.eqb_neq in H. now rewrite H.
Qed.

(** The first note with a given id after the map is the image of the
    first note with that id before it; if it is a matching note, it is
    the first one and takes the first reading. *)
Lemma find_updateNotes (clock : nat -> Z) (k0 : nat) (i : string)
    (t c : option Text) (ns : list Note) (sel : option string) :
  find (fun n => strictEq (id n) sel)
    (updateNotes clock k0 i (titleContent t c) ns)
  = option_map (updateCallback (clock k0) i (titleContent t c))
      (find (fun n => strictEq (id n) sel) ns).
Proof.
  revert k0; induction ns as [|n ns IH]; intros k0; simpl; [reflexivity|].
  unfold updateCallback at 1.
  destruct (String.eqb_spec (id n) i) as [E | E]; simpl.
  - destruct (strictEq (id n) sel) eqn:Es; simpl.
    + unfold updateCallback. apply String.eqb_eq in E. now rewrite E.
    + rewrite IH. destruct (find _ ns) as [m|] eqn:Ef; [|reflexivity].
      simpl. f_equal. apply updateCallback_other.
      apply find_some in Ef. destruct Ef as [_ Hm].
      intros Em. rewrite Em, <- E in Hm. congruence.
  - destruct (strictEq (id n) sel) eqn:Es; simpl.
    + unfold updateCallback. apply String.eqb_neq in E. now rewrite E.
    + apply IH.
Qed.

(* ================================================================= *)
(** ** Further properties: the active note after each operation *)

(** After [handleCreateNote] the note shown in the editor is the new
    note, in every prior state, also when an older note has the same id
    (the new note is in front of it). *)
Theorem create_then_resolve (now dateNow : Z) (rnd : N) (st : State) :
  selectedNote (notes (handleCreateNote now dateNow rnd st))
    (selectedNoteId (handleCreateNote now dateNow rnd st))
  = Some (newNote now dateNow rnd)
  /\ nth_error (notes (handleCreateNote now dateNow rnd st)) 0
     = Some (newNote now dateNow rnd).
Proof.
  unfold selectedNote, handleCreateNote, newNote; simpl.
  now rewrite String.eqb_refl.
Qed.

(** After [handleDeleteNote i] the id [i] resolves to no note, every
    other selected id resolves to the note it resolved to before, and
    the editor shows nothing if [i] was the selected id and the same
    note as before otherwise. *)
Theorem delete_then_resolve (i : string) (st : State) :
  selectedNote (notes (handleDeleteNote i st)) (Some i) = None
  /\ (forall sel, sel <> Some i ->
        selectedNote (notes (handleDeleteNote i st)) sel
        = selectedNote (notes st) sel)
  /\ selectedNote (notes (handleDeleteNote i st))
       (selectedNoteId (handleDeleteNote i st))
     = if strictEq i (selectedNoteId st) then None
       else selectedNote (notes st) (selectedNoteId st).
Proof.
  assert (Hother : forall sel, sel <> Some i ->
            selectedNote (notes (handleDeleteNote i st)) sel
            = selectedNote (notes st) sel).
  { intros sel Hsel. unfold selectedNote, handleDeleteNote; simpl.
    apply find_filter_implied. intros n Hn.
    apply strictEq_true_iff in Hn. apply negb_true_iff, String.eqb_neq.
    intros E. apply Hsel. now rewrite Hn, E. }
  split; [|split].
  - unfold selectedNote, handleDeleteNote; simpl.
    apply find_filter_excluded. intros n Hn. simpl in Hn.
    now rewrite Hn.
  - exact Hother.
  - destruct (strictEq i (selectedNoteId st)) eqn:E.
    + unfold handleDeleteNote at 2; simpl. rewrite E.
      apply selectedNote_none_iff. intros n _. discriminate.
    + replace (selectedNoteId (handleDeleteNote i st)) with (selectedNoteId st)
        by (unfold handleDeleteNote; simpl; now rewrite E).
      apply Hother. intros Hs. rewrite Hs in E. simpl in E.
      now rewrite String.eqb_refl in E.
Qed.

Lemma delete_then_resolve_witness :
  let a := mkNote "id-1-1" "Groceries" "milk" 10 10 in
  let b := mkNote "id-2-2" "Untitled Note" "" 20 20 in
  selectedNote (notes (handleDeleteNote "id-2-2" (mkState [b; a] None)))
    (Some "id-1-1")
  = selectedNote [b; a] (Some "id-1-1").
Proof.
  intros a b.
  apply (proj1 (proj2 (delete_then_resolve "id-2-2" (mkState [b; a] None)))
           (Some "id-1-1")).
  discriminate.
Defined.

Lemma selectedNote_update (clock : nat -> Z) (i : string) (t c : option Text)
    (st : State) (sel : option string) :
  selectedNote (notes (handleUpdateNote clock i (titleContent t c) st)) sel
  = option_map (updateCallback (clock 0%nat) i (titleContent t c))
      (selectedNote (notes st) sel).
Proof. unfold selectedNote, handleUpdateNote; simpl. apply find_updateNotes. Qed.

(** [handleUpdateNote] with fields [{title?, content?}] does not change
    which note a selected id resolves to: the note resolved afterwards
    is the image under the update of the note resolved before, stamped
    (if it is a matching note) with the first reading of the call. *)
Theorem update_then_resolve (clock : nat -> Z) (i : string)
    (t c : option Text) (st : State) (sel : option string) :
  selectedNote (notes (handleUpdateNote clock i (titleContent t c) st)) sel
  = option_map (updateCallback (clock 0%nat) i (titleContent t c))
      (selectedNote (notes st) sel).
Proof. apply selectedNote_update. Qed.

(* ================================================================= *)
(** ** Further properties: the editor's save *)

Lemma handleSave_same (clock : nat -> Z) (n : Note) (st : State) :
  handleSave clock n (title n) (content n) st = st.
Proof. unfold handleSave. now rewrite !eqText_refl. Qed.

Lemma handleSave_cases (clock : nat -> Z) (note : Note) (t c : Text)
    (st : State) :
  (handleSave clock note t c st = st /\ t = title note /\ c = content note)
  \/ handleSave clock note t c st
     = handleUpdateNote clock (id note) (titleContent (Some t) (Some c)) st.
Proof.
  unfold handleSave.
  destruct (eqText t (title note)) eqn:Et;
    destruct (eqText c (content note)) eqn:Ec; simpl; auto.
  apply eqText_iff in Et. apply eqText_iff in Ec. auto.
Qed.

(** Let [note] be the note the editor shows (the selected id resolves
    to it). After [handleSave] with the staged title [t] and content
    [c], the note the editor shows has exactly that title and content,
    with the id and [created] of [note]; and a second save of the same
    staged values, at any later time, changes nothing: two blurs in a
    row stamp [updated] once. *)
Theorem save_commits_once (clock clock' : nat -> Z) (note : Note) (t c : Text)
    (st : State) (sel : option string) :
  selectedNote (notes st) sel = Some note ->
  exists note',
    selectedNote (notes (handleSave clock note t c st)) sel = Some note'
    /\ title note' = t /\ content note' = c
    /\ id note' = id note /\ created note' = created note
    /\ handleSave clock' note' t c (handleSave clock note t c st)
       = handleSave clock note t c st.
Proof.
  intros Hsel.
  destruct (handleSave_cases clock note t c st) as [[E [Et Ec]] | E];
    rewrite E.
  - exists note. subst t c. repeat split; try assumption.
    apply handleSave_same.
  - exists (mkNote (id note) t c (created note) (clock 0%nat)).
    rewrite selectedNote_update, Hsel. simpl.
    unfold updateCallback. rewrite String.eqb_refl. simpl.
    repeat split.
    apply (handleSave_same clock'
             (mkNote (id note) t c (created note) (clock 0%nat))).
Qed.

Lemma save_commits_once_witness :
  exists note',
    selectedNote
      (notes (handleSave (fun _ => 20)
                (mkNote "id-1-1" "Untitled Note" "" 10 10)
                "Groceries" "milk"
                (mkState [mkNote "id-1-1" "Untitled Note" "" 10 10]
                   (Some "id-1-1"))))
      (Some "id-1-1")
    = Some note'
    /\ title note' = "Groceries" /\ content note' = "milk"
    /\ id note' = "id-1-1" /\ created note' = 10
    /\ handleSave (fun _ => 30) note' "Groceries" "milk"
         (handleSave (fun _ => 20) (mkNote "id-1-1" "Untitled Note" "" 10 10)
            "Groceries" "milk"
            (mkState [mkNote "id-1-1" "Untitled Note" "" 10 10]
               (Some "id-1-1")))
       = handleSave (fun _ => 20) (mkNote "id-1-1" "Untitled Note" "" 10 10)
           "Groceries" "milk"
           (mkState [mkNote "id-1-1" "Untitled Note" "" 10 10]
              (Some "id-1-1")).
Proof.
  apply (save_commits_once (fun _ => 20) (fun _ => 30)
           (mkNote "id-1-1" "Untitled Note" "" 10 10)
           "Groceries" "milk"
           (mkState [mkNote "id-1-1" "Untitled Note" "" 10 10] (Some "id-1-1"))
           (Some "id-1-1")).
  reflexivity.
Defined.

(** [handleSave] never changes the selection, the number of notes or the
    order of their ids, and leaves every note whose id is not the id of
    the edited note as it was. *)
Theorem save_frame (clock : nat -> Z) (note : Note) (t c : Text) (st : State) :
  selectedNoteId (handleSave clock note t c st) = selectedNoteId st
  /\ List.length (notes (handleSave clock note t c st))
     = List.length (notes st)
  /\ map id (notes (handleSave clock note t c st)) = map id (notes st)
  /\ (forall k n,
        nth_error (notes st) k = Some n ->
        id n <> id note ->
        nth_error (notes (handleSave clock note t c st)) k = Some n).
Proof.
  unfold handleSave.
  destruct (negb (eqText t (title note)) || negb (eqText c (content note))).
  - destruct (handleUpdateNote_others clock (id note)
                (titleContent (Some t) (Some c)) st) as [Hlen Hoth].
    repeat split; [exact Hlen | now apply handleUpdateNote_ids | exact Hoth].
  - repeat split. intros k n Hk _. exact Hk.
Qed.

Lemma save_frame_witness :
  nth_error
    (notes (handleSave (fun _ => 20) (mkNote "id-1-1" "Y" "milk" 10 10)
              "X" "milk"
              (mkState [mkNote "id-2-2" "Untitled Note" "" 15 15;
                        mkNote "id-1-1" "Y" "milk" 10 10] (Some "id-1-1"))))
    0
  = Some (mkNote "id-2-2" "Untitled Note" "" 15 15).
Proof.
  apply (proj2 (proj2 (proj2
           (save_frame (fun _ => 20) (mkNote "id-1-1" "Y" "milk" 10 10)
              "X" "milk"
              (mkState [mkNote "id-2-2" "Untitled Note" "" 15 15;
                        mkNote "id-1-1" "Y" "milk" 10 10] (Some "id-1-1")))))
           0%nat).
  - reflexivity.
  - discriminate.
Defined.

(* ================================================================= *)
(** ** Further properties: how deletions and updates compose *)

Lemma strictEq_after_delete (i j : string) (sel : option string) :
  strictEq i (if strictEq j sel then None else sel)
  = strictEq i sel && negb (strictEq j sel).
Proof.
  destruct sel as [s|]; simpl; [|reflexivity].
  destruct (j =? s)%string; simpl; [now rewrite andb_false_r|].
  now rewrite andb_true_r.
Qed.

(** Deleting the same id twice is the same as deleting it once, and two
    deletions give the same state in either order. *)
Theorem delete_idempotent_commutes (i j : string) (st : State) :
  handleDeleteNote i (handleDeleteNote i st) = handleDeleteNote i st
  /\ handleDeleteNote i (handleDeleteNote j st)
     = handleDeleteNote j (handleDeleteNote i st).
Proof.
  split.
  - unfold handleDeleteNote; simpl. f_equal.
    + apply filter_twice_implied. auto.
    + rewrite strictEq_after_delete.
      destruct (strictEq i (selectedNoteId st)); reflexivity.
  - unfold handleDeleteNote; simpl. f_equal.
    + apply filter_swap.
    + rewrite !strictEq_after_delete.
      destruct (strictEq i (selectedNoteId st)),
               (strictEq j (selectedNoteId st)); reflexivity.
Qed.

Lemma ids_apart (pre post : list Note) (n : Note) :
  NoDup (map id (pre ++ n :: post)) ->
  forall m, In m pre \/ In m post -> id m <> id n.
Proof.
  rewrite map_app. simpl. intros H m Hm E.
  apply NoDup_remove_2 in H. apply H. rewrite <- E.
  apply in_or_app. destruct Hm as [Hm | Hm]; [left | right]; now apply in_map.
Qed.

(** When the ids of the collection are pairwise distinct,
    [handleDeleteNote] with the id of a note removes that note and
    nothing else. *)
Theorem delete_exactly_one (st : State) (pre post : list Note) (n : Note) :
  NoDup (map id (notes st)) ->
  notes st = pre ++ n :: post ->
  notes (handleDeleteNote (id n) st) = pre ++ post.
Proof.
  intros Hnd Hns. rewrite Hns in Hnd.
  unfold handleDeleteNote; simpl. rewrite Hns, filter_app. simpl.
  rewrite String.eqb_refl. simpl. f_equal; apply filter_all; intros m Hm;
    apply negb_true_iff, String.eqb_neq;
    apply (ids_apart pre post n Hnd); auto.
Qed.

Lemma delete_exactly_one_witness :
  let a := mkNote "id-1-1" "Groceries" "milk" 10 10 in
  let b := mkNote "id-2-2" "Untitled Note" "" 20 20 in
  let c := mkNote "id-3-3" "Untitled Note" "" 30 30 in
  notes (handleDeleteNote "id-2-2" (mkState [c; b; a] (Some "id-3-3")))
  = [c; a].
Proof.
  intros a b c.
  apply (delete_exactly_one (mkState [c; b; a] (Some "id-3-3")) [c] [a] b).
  - simpl. repeat constructor; simpl; intuition discriminate.
  - reflexivity.
Defined.

Lemma updateNotes_one (clock : nat -> Z) (k : nat) (f : NewFields)
    (pre post : list Note) (n : Note) :
  (forall m, In m pre \/ In m post -> id m <> id n) ->
  updateNotes clock k (id n) f (pre ++ n :: post)
  = pre ++ setUpdated (spread n f) (clock k) :: post.
Proof.
  intros H. induction pre as [|m pre IH]; simpl.
  - rewrite String.eqb_refl. f_equal.
    apply updateNotes_unchanged. intros m Hm. apply H. now right.
  - assert (E : id m <> id n) by (apply H; left; now left).
    apply String.eqb_neq in E. rewrite E. f_equal. apply IH.
    intros x [Hx | Hx]; apply H; [left; now right | now right].
Qed.

(** When the ids of the collection are pairwise distinct,
    [handleUpdateNote] with the id of a note and fields
    [{title?, content?}] rewrites that note, stamping it with the one
    reading of the call, and leaves the rest of the collection as it
    was. *)
Theorem update_exactly_one (clock : nat -> Z) (t c : option Text) (st : State)
    (pre post : list Note) (n : Note) :
  NoDup (map id (notes st)) ->
  notes st = pre ++ n :: post ->
  notes (handleUpdateNote clock (id n) (titleContent t c) st)
  = pre
    ++ {| id := id n; title := orElse t (title n);
          content := orElse c (content n);
          created := created n; updated := clock 0%nat |}
    :: post.
Proof.
  intros Hnd Hns. rewrite Hns in Hnd.
  unfold handleUpdateNote; simpl. rewrite Hns.
  now rewrite updateNotes_one by (apply (ids_apart pre post n Hnd)).
Qed.

Lemma update_exactly_one_witness :
  let a := mkNote "id-1-1" "Groceries" "milk" 10 10 in
  let b := mkNote "id-2-2" "Untitled Note" "" 20 20 in
  notes (handleUpdateNote (fun _ => 30) "id-1-1"
           (titleContent None (Some (text "milk, eggs")))
           (mkState [b; a] (Some "id-1-1")))
  = [b; mkNote "id-1-1" "Groceries" "milk, eggs" 10 30].
Proof.
  intros a b.
  apply (update_exactly_one (fun _ => 30) None (Some (text "milk, eggs"))
           (mkState [b; a] (Some "id-1-1")) [b] [] a).
  - simpl. repeat constructor; simpl; intuition discriminate.
  - reflexivity.
Defined.

Lemma updateNotes_twice (clock1 clock2 : nat -> Z) (k1 k2 : nat) (i : string)
    (t1 c1 t2 c2 : option Text) (ns : list Note) :
  updateNotes clock2 k2 i (titleContent t2 c2)
    (updateNotes clock1 k1 i (titleContent t1 c1) ns)
  = updateNotes clock2 k2 i
      (titleContent (laterOver t2 t1) (laterOver c2 c1)) ns.
Proof.
  revert k1 k2; induction ns as [|n ns IH]; intros k1 k2; simpl;
    [reflexivity|].
  destruct (id n =? i)%string eqn:E; simpl; rewrite E, IH; [|reflexivity].
  f_equal. destruct t1, t2, c1, c2; reflexivity.
Qed.

(** Two updates of the same id with fields [{title?, content?}] equal
    one update that takes the readings of the later call and in which
    each field has the later value supplied for it: the two calls meet
    the same matching notes in the same order, and the later stamp
    replaces the earlier one on each. *)
Theorem update_twice (clock1 clock2 : nat -> Z) (i : string)
    (t1 c1 t2 c2 : option Text) (st : State) :
  handleUpdateNote clock2 i (titleContent t2 c2)
    (handleUpdateNote clock1 i (titleContent t1 c1) st)
  = handleUpdateNote clock2 i
      (titleContent (laterOver t2 t1) (laterOver c2 c1)) st.
Proof.
  unfold handleUpdateNote; simpl. f_equal. apply updateNotes_twice.
Qed.




(* ================================================================= *)
(** ** Further properties: the search filter *)

Section Filter.

Variable toLowerCase : Text -> Text.

Lemma matchesQuery_weaken (q q' : Text) (n : Note) :
  isSubstring q' q ->
  matchesQuery toLowerCase q n = true ->
  matchesQuery toLowerCase q' n = true.
Proof.
  intros Hsub. unfold matchesQuery. rewrite !orb_true_iff, !includes_iff.
  intros [H | H]; [left | right]; now apply isSubstring_trans with q.
Qed.

Lemma isSubstring_blank (q q' : Text) :
  isSubstring q' q -> allWhiteSpace q -> allWhiteSpace q'.
Proof.
  intros [pre [post ->]] H.
  apply allWhiteSpace_app in H. destruct H as [_ H].
  apply allWhiteSpace_app in H. tauto.
Qed.

(** Searching within the results of a search: when the lower case of
    [q'] is a substring of the lower case of [q] (in particular when
    [q] is [q'], and, for queries over U+0000..U+00FF, when [q] extends
    [q']), filtering by [q] the notes already filtered by [q'] gives the
    notes filtered by [q] alone; so filtering twice by one query is
    filtering once. *)
Theorem filter_refines (q q' : Text) (ns : list Note) :
  lowerKeepsBlank toLowerCase ->
  isSubstring (toLowerCase q') (toLowerCase q)
  \/ (lowersLatin1ByUnit toLowerCase /\ latin1 q
      /\ occursIgnoringCase toLowerCase q' q) ->
  filteredNotes toLowerCase q (filteredNotes toLowerCase q' ns)
  = filteredNotes toLowerCase q ns.
Proof.
  intros Hblank Hocc.
  assert (Hsub : isSubstring (toLowerCase q') (toLowerCase q)).
  { destruct Hocc as [H | [Hunit [Hq H]]]; [exact H|].
    apply includes_iff. now apply includes_lower_iff. }
  clear Hocc. unfold filteredNotes.
  destruct (isEmpty (trim q)) eqn:Bq;
    destruct (isEmpty (trim q')) eqn:Bq'; try reflexivity.
  - exfalso. apply blank_test_iff in Bq. apply blank_test_false_iff in Bq'.
    apply Bq'. apply Hblank. apply (isSubstring_blank _ _ Hsub).
    now apply Hblank.
  - apply filter_twice_implied. intros n. now apply matchesQuery_weaken.
Qed.

(** The filter does not depend on the letter case of the query: two
    queries that are equal up to case select the same notes. *)
Theorem filter_query_case (q1 q2 : Text) (ns : list Note) :
  lowerKeepsBlank toLowerCase ->
  equalIgnoringCase toLowerCase q1 q2 ->
  filteredNotes toLowerCase q1 ns = filteredNotes toLowerCase q2 ns.
Proof.
  intros Hblank E. unfold equalIgnoringCase in E. unfold filteredNotes.
  assert (B : allWhiteSpace q1 <-> allWhiteSpace q2)
    by (now rewrite <- (Hblank q1), <- (Hblank q2), E).
  destruct (isEmpty (trim q1)) eqn:B1; destruct (isEmpty (trim q2)) eqn:B2.
  - reflexivity.
  - exfalso. apply blank_test_iff in B1. apply blank_test_false_iff in B2.
    tauto.
  - exfalso. apply blank_test_iff in B2. apply blank_test_false_iff in B1.
    tauto.
  - now rewrite E.
Qed.

(** Deleting a note and filtering commute: the list shown after a
    deletion is the list shown before it, less the notes with the
    deleted id. *)
Theorem filter_after_delete (q : Text) (i : string) (st : State) :
  filteredNotes toLowerCase q (notes (handleDeleteNote i st))
  = notes (handleDeleteNote i
             {| notes := filteredNotes toLowerCase q (notes st);
                selectedNoteId := selectedNoteId st |}).
Proof.
  unfold filteredNotes, handleDeleteNote; simpl.
  destruct (isEmpty (trim q)); [reflexivity | apply filter_swap].
Qed.

Lemma occurs_in_empty (q : Text) :
  lowersLatin1ByUnit toLowerCase ->
  occursIgnoringCase toLowerCase q [] -> toLowerCase q = [].
Proof.
  intros Hunit [pre [mid [post [E H]]]]. unfold equalIgnoringCase in H.
  destruct pre; [|discriminate]. destruct mid; [|discriminate].
  rewrite <- H. apply (Hunit []). constructor.
Qed.

(** A note created while a search is active is listed only if the query
    occurs in its default title ["Untitled Note"] up to letter case;
    otherwise the list shown is the one shown before, although the new
    note is the selected one. *)
Theorem created_note_listed (q : Text) (now dateNow : Z) (rnd : N)
    (st : State) :
  lowersLatin1ByUnit toLowerCase ->
  lowerKeepsBlank toLowerCase ->
  ~ allWhiteSpace q ->
  (In (newNote now dateNow rnd)
      (filteredNotes toLowerCase q
         (notes (handleCreateNote now dateNow rnd st)))
   <-> occursIgnoringCase toLowerCase q "Untitled Note")
  /\ (~ occursIgnoringCase toLowerCase q "Untitled Note" ->
      filteredNotes toLowerCase q (notes (handleCreateNote now dateNow rnd st))
      = filteredNotes toLowerCase q (notes st)).
Proof.
  intros Hunit Hblank Hq. unfold filteredNotes.
  apply blank_test_false_iff in Hq as B. rewrite B.
  change (notes (handleCreateNote now dateNow rnd st))
    with (newNote now dateNow rnd :: notes st).
  assert (M : matchesQuery toLowerCase (toLowerCase q) (newNote now dateNow rnd)
              = true
              <-> occursIgnoringCase toLowerCase q "Untitled Note").
  { rewrite matchesQuery_iff.
    rewrite (loweredQueryIn_latin1 toLowerCase Hunit)
      by (simpl; apply latin1_text).
    unfold noteMatches; simpl. split; [|tauto].
    intros [H | H]; [exact H|].
    apply (occurs_in_empty q Hunit) in H. exfalso. apply Hq.
    apply Hblank. now rewrite H. }
  split.
  - rewrite filter_In, M. simpl. tauto.
  - intros Hno. simpl.
    destruct (matchesQuery toLowerCase (toLowerCase q)
                (newNote now dateNow rnd));
      [|reflexivity].
    exfalso. now apply Hno, M.
Qed.

End Filter.

Lemma filter_refines_witness :
  let a := mkNote "id-1-1" "Groceries" "Milk, eggs" 10 10 in
  let b := mkNote "id-2-2" "Untitled Note" "" 20 20 in
  filteredNotes toLowerCaseSample "MILK"
    (filteredNotes toLowerCaseSample "il" [b; a])
  = filteredNotes toLowerCaseSample "MILK" [b; a].
Proof.
  intros a b.
  apply (filter_refines toLowerCaseSample "MILK" "il" [b; a] sample_keepsBlank).
  left. exists (text "m"), (text "k"). reflexivity.
Defined.

Lemma filter_query_case_witness :
  let a := mkNote "id-1-1" "Groceries" "Milk, eggs" 10 10 in
  let b := mkNote "id-2-2" "Untitled Note" "" 20 20 in
  filteredNotes toLowerCaseSample "mILk" [b; a]
  = filteredNotes toLowerCaseSample "Milk" [b; a].
Proof.
  intros a b.
  apply (filter_query_case toLowerCaseSample "mILk" "Milk" [b; a]
           sample_keepsBlank).
  reflexivity.
Defined.

Lemma created_note_listed_witness :
  filteredNotes toLowerCaseSample "milk"
    (notes (handleCreateNote 30 30 7
              (mkState [mkNote "id-1-1" "Groceries" "Milk, eggs" 10 10] None)))
  = filteredNotes toLowerCaseSample "milk"
      [mkNote "id-1-1" "Groceries" "Milk, eggs" 10 10].
Proof.
  apply (proj2 (created_note_listed toLowerCaseSample "milk" 30 30 7
                  (mkState [mkNote "id-1-1" "Groceries" "Milk, eggs" 10 10]
                     None)
                  sample_byUnit sample_keepsBlank
                  ltac:(discriminate))).
  intros H.
  apply (includes_lower_iff toLowerCaseSample sample_byUnit) in H;
    [discriminate H | apply latin1_text].
Defined.

(* ================================================================= *)
(** ** Further properties: invariants of a session *)

Lemma ids_after_delete (i s : string) (ns : list Note) :
  s <> i ->
  In s (map id ns) ->
  In s (map id (filter (fun n => negb (id n =? i)%string) ns)).
Proof.
  intros Hs Hin. apply in_map_iff in Hin. destruct Hin as [n [Hn Hin]].
  apply in_map_iff. exists n. split; [exact Hn|].
  apply filter_In. split; [exact Hin|].
  apply negb_true_iff, String.eqb_neq. congruence.
Qed.

Lemma step_selectionValid (o : Op) (st : State) :
  selectionValid st ->
  match o with
  | SelectNote (Some i) => In i (map id (notes st))
  | _ => True
  end ->
  selectionValid (step st o).
Proof.
  unfold selectionValid. intros Hv Ho.
  destruct o as [now dateNow rnd | clock i t c | i | [i|]]; cbn [step].
  - simpl. now left.
  - rewrite handleUpdateNote_ids by reflexivity. exact Hv.
  - simpl. destruct (selectedNoteId st) as [s|]; simpl; [|exact I].
    destruct (String.eqb_spec i s) as [E | E]; [exact I|].
    apply ids_after_delete; [congruence | exact Hv].
  - exact Ho.
  - exact I.
Qed.

Lemma run_selectionValid (ops : list Op) (st : State) :
  selectionValid st -> sidebarSelections ops st -> selectionValid (run ops st).
Proof.
  revert st; induction ops as [|o ops IH]; intros st Hv Hs; [exact Hv|].
  destruct Hs as [Ho Hs]. simpl. apply IH; [|exact Hs].
  now apply step_selectionValid.
Qed.

(** In a session where notes are selected as the [Sidebar] selects them
    (by the id of a note of the collection), the selected id is always
    null or the id of a note of the collection, and the editor shows a
    note exactly when the selected id is not null. *)
Theorem selection_never_dangles (ops : list Op) :
  sidebarSelections ops initialState ->
  selectionValid (run ops initialState)
  /\ (selectedNote (notes (run ops initialState))
        (selectedNoteId (run ops initialState)) = None
      <-> selectedNoteId (run ops initialState) = None).
Proof.
  intros Hs.
  assert (Hv : selectionValid (run ops initialState))
    by (apply run_selectionValid; [exact I | exact Hs]).
  split; [exact Hv|].
  rewrite selectedNote_none_iff. unfold selectionValid in Hv.
  destruct (selectedNoteId (run ops initialState)) as [s|].
  - split; [|discriminate]. intros H. exfalso.
    apply in_map_iff in Hv. destruct Hv as [n [Hn Hin]].
    apply (H n Hin). now rewrite Hn.
  - split; [reflexivity | intros _ n _; discriminate].
Qed.

Lemma selection_never_dangles_witness :
  selectionValid
    (run [CreateNote 10 10 1; CreateNote 20 20 2;
          SelectNote (Some "id-10-1"); DeleteNote "id-20-2"]
       initialState)
  /\ selectedNoteId
       (run [CreateNote 10 10 1; CreateNote 20 20 2;
             SelectNote (Some "id-10-1"); DeleteNote "id-20-2"]
          initialState)
     = Some "id-10-1".
Proof.
  split; [|reflexivity].
  apply (selection_never_dangles
           [CreateNote 10 10 1; CreateNote 20 20 2;
            SelectNote (Some "id-10-1"); DeleteNote "id-20-2"]).
  simpl. intuition.
Defined.

Lemma NoDup_ids_filter (a : list string) (p : Note -> bool) (ns : list Note) :
  NoDup (a ++ map id ns) -> NoDup (a ++ map id (filter p ns)).
Proof.
  assert (Hincl : forall x, In x (map id (filter p ns)) -> In x (map id ns)).
  { intros x Hx. apply in_map_iff in Hx. destruct Hx as [n [Hn Hin]].
    apply filter_In in Hin. apply in_map_iff. exists n. tauto. }
  induction a as [|x a IH]; simpl.
  - clear Hincl. induction ns as [|n ns IHn]; simpl; [auto|].
    intros H. inversion H as [|y l Hnotin Hnd]; subst.
    destruct (p n); simpl; [|now apply IHn].
    constructor; [|now apply IHn].
    intros Hin. apply Hnotin. apply in_map_iff in Hin.
    destruct Hin as [m [Hm Hin]]. apply filter_In in Hin.
    apply in_map_iff. exists m. tauto.
  - intros H. inversion H as [|y l Hnotin Hnd]; subst.
    constructor; [|now apply IH].
    intros Hin. apply Hnotin. apply in_app_iff in Hin. apply in_app_iff.
    destruct Hin as [Hin | Hin]; [now left | right; now apply Hincl].
Qed.

Lemma run_ids_NoDup (ops : list Op) (st : State) :
  NoDup (map (fun p => generateId (fst p) (snd p)) (idSeeds ops)
         ++ map id (notes st)) ->
  NoDup (map id (notes (run ops st))).
Proof.
  revert st; induction ops as [|o ops IH]; intros st H; [exact H|].
  cbn [run fold_left]. apply IH. unfold idSeeds in *.
  destruct o as [now dateNow rnd | clock i t c | i | i];
    cbn [step flat_map app] in *.
  - simpl. apply Permutation_NoDup with (2 := H). apply Permutation_middle.
  - rewrite handleUpdateNote_ids by reflexivity. exact H.
  - simpl. now apply NoDup_ids_filter.
  - exact H.
Qed.

(** In a session in which no two [createNote] calls read the same
    [Date.now()] value and draw the same number, the ids of the notes of
    the collection are pairwise distinct in every state reached: no
    operation copies a note or changes an id. *)
Theorem collection_ids_distinct (ops : list Op) :
  NoDup (idSeeds ops) ->
  NoDup (map id (notes (run ops initialState))).
Proof.
  intros H. apply run_ids_NoDup. simpl. rewrite app_nil_r.
  apply Injective_map_NoDup; [|exact H].
  intros [t1 r1] [t2 r2] E. simpl in E.
  apply generateId_inj in E. destruct E; now subst.
Qed.

Lemma collection_ids_distinct_witness :
  NoDup (map id (notes (run [CreateNote 10 10 1; CreateNote 20 20 1;
                             UpdateNote (fun _ => 30) "id-10-1"
                               (Some (text "Groceries")) None;
                             DeleteNote "id-20-1"; CreateNote 40 40 1]
                          initialState))).
Proof.
  apply (collection_ids_distinct
           [CreateNote 10 10 1; CreateNote 20 20 1;
            UpdateNote (fun _ => 30) "id-10-1" (Some (text "Groceries")) None;
            DeleteNote "id-20-1"; CreateNote 40 40 1]).
  simpl. repeat constructor; simpl; intuition discriminate.
Defined.

Lemma run_provenance (ops : list Op) (st : State) (n : Note) :
  In n (notes (run ops st)) ->
  (exists m, In m (notes st) /\ id m = id n /\ created m = created n)
  \/ (exists now dateNow rnd,
        In (CreateNote now dateNow rnd) ops
        /\ id n = generateId dateNow rnd /\ created n = now).
Proof.
  revert st; induction ops as [|o ops IH]; intros st Hn.
  - left. now exists n.
  - simpl in Hn. destruct (IH _ Hn) as [[m [Hm [Hid Hcr]]] | Hlater].
    + destruct o as [now dateNow rnd | clock i t c | i | i]; cbn [step] in Hm.
      * destruct Hm as [<- | Hm].
        -- right. exists now, dateNow, rnd. simpl in *. repeat split; auto.
        -- left. now exists m.
      * unfold handleUpdateNote in Hm. simpl in Hm.
        apply updateNotes_In in Hm.
        destruct Hm as [Hm | [m0 [j [Hm0 [E _]]]]].
        -- left. now exists m.
        -- left. exists m0. split; [exact Hm0|].
           rewrite <- Hid, <- Hcr, E. simpl. auto.
      * simpl in Hm. apply filter_In in Hm. left. exists m. tauto.
      * left. now exists m.
    + right. destruct Hlater as [now [dateNow [rnd [Hin H]]]].
      exists now, dateNow, rnd. split; [now right | exact H].
Qed.

(** Every note of every state of a session was made by one of the
    session's [createNote] calls and still has the id that call
    generated and, as [created], the time that call read: ids and
    creation times are set once and never rewritten. *)
Theorem notes_keep_id_and_created (ops : list Op) (n : Note) :
  In n (notes (run ops initialState)) ->
  exists now dateNow rnd,
    In (CreateNote now dateNow rnd) ops
    /\ id n = generateId dateNow rnd
    /\ created n = now.
Proof.
  intros Hn. destruct (run_provenance ops initialState n Hn)
    as [[m [[] _]] | H]; exact H.
Qed.

Lemma notes_keep_id_and_created_witness :
  exists now dateNow rnd,
    In (CreateNote now dateNow rnd)
       [CreateNote 10 11 1;
        UpdateNote (fun _ => 30) "id-11-1"
          (Some (text "Groceries")) (Some (text "milk"))]
    /\ id (mkNote "id-11-1" "Groceries" "milk" 10 30) = generateId dateNow rnd
    /\ created (mkNote "id-11-1" "Groceries" "milk" 10 30) = now.
Proof.
  apply (notes_keep_id_and_created
           [CreateNote 10 11 1;
            UpdateNote (fun _ => 30) "id-11-1"
              (Some (text "Groceries")) (Some (text "milk"))]
           (mkNote "id-11-1" "Groceries" "milk" 10 30)).
  simpl. now left.
Defined.

(* ================================================================= *)
(** ** Further properties: the list shown by the sidebar *)

Lemma filteredNotes_incl (toLowerCase : Text -> Text) (q : Text)
    (ns : list Note) (n : Note) :
  In n (filteredNotes toLowerCase q ns) -> In n ns.
Proof.
  unfold filteredNotes. destruct (isEmpty (trim q)); [auto|].
  intros H. now apply filter_In in H.
Qed.

Lemma same_id_same_note (ns : list Note) (m n : Note) :
  NoDup (map id ns) -> In m ns -> In n ns -> id m = id n -> m = n.
Proof.
  induction ns as [|x ns IH]; simpl; [intros _ []|].
  intros H Hm Hn E. inversion H as [|y l Hnotin Hnd]; subst.
  destruct Hm as [<- | Hm], Hn as [<- | Hn].
  - reflexivity.
  - exfalso. apply Hnotin. rewrite E. now apply in_map.
  - exfalso. apply Hnotin. rewrite <- E. now apply in_map.
  - now apply IH.
Qed.

Lemma itemClassName_selected (sel : option string) (n : Note) :
  itemClassName sel n = "note-list-item selected" <-> sel = Some (id n).
Proof.
  unfold itemClassName. rewrite <- strictEq_true_iff.
  destruct (strictEq (id n) sel); split; try reflexivity; discriminate.
Qed.

(** When the ids of the collection are pairwise distinct, an item of the
    list that [Sidebar] is given (the filtered notes) has the class of
    the selected item exactly when its note is the one the editor
    shows. *)
Theorem highlighted_item_is_active (toLowerCase : Text -> Text) (q : Text)
    (ns : list Note) (sel : option string) (n : Note) :
  NoDup (map id ns) ->
  In n (filteredNotes toLowerCase q ns) ->
  (itemClassName sel n = "note-list-item selected"
   <-> selectedNote ns sel = Some n).
Proof.
  intros Hnd Hn. apply filteredNotes_incl in Hn.
  rewrite itemClassName_selected. split.
  - intros Hs. destruct (selectedNote ns sel) as [m|] eqn:E.
    + destruct (selectedNote_first _ _ _ E) as [pre [post [Hns [Hm _]]]].
      f_equal. apply (same_id_same_note ns); auto.
      * rewrite Hns. apply in_or_app. right. now left.
      * congruence.
    + exfalso. now apply (proj1 (selectedNote_none_iff ns sel) E n Hn).
  - intros E. now destruct (selectedNote_first _ _ _ E) as [_ [_ [_ [Hs _]]]].
Qed.

Lemma highlighted_item_is_active_witness :
  let a := mkNote "id-1-1" "Groceries" "milk" 10 10 in
  let b := mkNote "id-2-2" "Untitled Note" "" 20 20 in
  itemClassName (Some "id-1-1") a = "note-list-item selected"
  <-> selectedNote [b; a] (Some "id-1-1") = Some a.
Proof.
  intros a b.
  apply (highlighted_item_is_active toLowerCaseSample "milk" [b; a]
           (Some "id-1-1") a).
  - simpl. repeat constructor; simpl; intuition discriminate.
  - simpl. now left.
Defined.

(** [Sidebar] renders ["No notes found."] for the filtered notes exactly
    when the collection is empty (empty or all-whitespace query) or, for
    any other query, when the lower-cased query is a substring neither
    of the lower-cased title nor of the lower-cased content of any
    note. *)
Theorem empty_message_shown (toLowerCase : Text -> Text) (q : Text)
    (ns : list Note) :
  (allWhiteSpace q ->
     (showsEmptyMessage (filteredNotes toLowerCase q ns) = true <-> ns = []))
  /\ (~ allWhiteSpace q ->
        (showsEmptyMessage (filteredNotes toLowerCase q ns) = true
         <-> forall n, In n ns -> ~ loweredQueryIn toLowerCase q n)).
Proof.
  assert (L : forall l : list Note, showsEmptyMessage l = true <-> l = []).
  { intros [|x l]; simpl; split; try reflexivity; discriminate. }
  unfold filteredNotes. split; intros Hq.
  - apply blank_test_iff in Hq. rewrite Hq. apply L.
  - apply blank_test_false_iff in Hq. rewrite Hq, L. split.
    + intros E n Hn Hm. apply matchesQuery_iff in Hm.
      assert (Hin : In n (filter (matchesQuery toLowerCase (toLowerCase q)) ns))
        by (apply filter_In; auto).
      now rewrite E in Hin.
    + intros H. induction ns as [|x ns IH]; simpl; [reflexivity|].
      destruct (matchesQuery toLowerCase (toLowerCase q) x) eqn:E.
      * exfalso. apply (H x); [now left | now apply matchesQuery_iff].
      * apply IH. intros n Hn. apply H. now right.
Qed.

Lemma empty_message_shown_witness :
  showsEmptyMessage (filteredNotes toLowerCaseSample "   " []) = true
  /\ showsEmptyMessage
       (filteredNotes toLowerCaseSample [931%N]
          [mkNote "id-1-1" [65; 931]%N "milk" 10 10])
     = true.
Proof.
  split.
  - apply (proj1 (empty_message_shown toLowerCaseSample "   " []));
      reflexivity.
  - apply (proj2 (empty_message_shown toLowerCaseSample [931%N]
                    [mkNote "id-1-1" [65; 931]%N "milk" 10 10])).
    + discriminate.
    + intros n [<- | []] H. apply matchesQuery_iff in H. discriminate H.
Defined.

(** The end-to-end scenario of the specification, run on the code:
    create, commit an edit from the editor, search, delete. *)
Example end_to_end :
  let s1 := handleCreateNote 1000 1000 7 initialState in
  let n1 := mkNote "id-1000-7" "Untitled Note" "" 1000 1000 in
  let s2 := handleSave (fun _ => 2000) n1 "Groceries" "milk, eggs" s1 in
  let n2 := mkNote "id-1000-7" "Groceries" "milk, eggs" 1000 2000 in
  let s3 := handleDeleteNote "id-1000-7" s2 in
  s1 = mkState [n1] (Some "id-1000-7")
  /\ selectedNote (notes s1) (selectedNoteId s1) = Some n1
  /\ s2 = mkState [n2] (Some "id-1000-7")
  /\ filteredNotes toLowerCaseSample "MILK" (notes s2) = [n2]
  /\ filteredNotes toLowerCaseSample "bread" (notes s2) = []
  /\ s3 = mkState [] None
  /\ selectedNote (notes s3) (selectedNoteId s3) = None.
Proof. repeat split. Qed.

(** An update of an id that two notes share reads the clock once for
    each of them, in the order of the collection. *)
Example update_reads_clock_per_match :
  let st := run [CreateNote 10 10 7; CreateNote 10 10 7] initialState in
  map updated
    (notes (handleUpdateNote (fun j => 20 + Z.of_nat j) "id-10-7"
              (titleContent (Some (text "X")) None) st))
  = [20; 21].
Proof. reflexivity. Qed.
